(** * Teams greeting bot: membership tracking and greeting dispatch

    A shallow embedding of the Python services of the repository

      - [models/schemas.py]          (the records),
      - [services/openai_service.py] (greeting text, voice, synthesis),
      - [services/teams_service.py]  (the meeting membership tracker),
      - [bot/teams_bot.py]           (the join/leave event handlers),

    followed by the properties that the specification states about them.

    Python dictionaries are finite maps ([gmap]), Python sets are finite
    sets ([gset]), Python strings are byte strings (their UTF-8 encoding).
    The service object is mutable: its three dictionaries are threaded
    through a state monad, together with the trace of what the code logs
    and asks of its collaborators.  Exceptions are the [Raised] outcome of
    that monad; a raise keeps the state reached so far, as in Python. *)

From Stdlib Require Import ZArith Ascii String.
From stdpp Require Import gmap strings list fin_maps.

(** ** Python strings *)

Module PyStr.

(** [c.lower()] on one byte: the ASCII capitals are mapped to their small
    letter.  Bytes above 127 (pieces of a UTF-8 sequence) are left alone.
    Python lowers code points outside ASCII too; none of them lowers to
    [b], [o] or [t], so whether "bot" occurs in a lowered name is the same
    on both sides. *)
Definition lower_ascii (c : ascii) : ascii :=
  let n := nat_of_ascii c in
  if bool_decide (65 ≤ n ≤ 90)%nat then ascii_of_nat (n + 32) else c.

(** [s.lower()] *)
Fixpoint lower (s : string) : string :=
  match s with
  | EmptyString => EmptyString
  | String c s' => String (lower_ascii c) (lower s')
  end.

(** [s.startswith(p)] *)
Fixpoint startswith (p s : string) : bool :=
  match p, s with
  | EmptyString, _ => true
  | String _ _, EmptyString => false
  | String a p', String b s' => Ascii.eqb a b && startswith p' s'
  end.

(** [p in s]: [p] occurs in [s] as a substring. *)
Fixpoint contains (p s : string) : bool :=
  startswith p s ||
  match s with
  | EmptyString => false
  | String _ s' => contains p s'
  end.

(** No byte of [s] is a brace. *)
Fixpoint brace_free (s : string) : bool :=
  match s with
  | EmptyString => true
  | String c s' =>
      negb (Ascii.eqb c "{") && negb (Ascii.eqb c "}")
      && brace_free s'
  end.

(** Truthiness of a string: [if s:] holds for the non-empty ones. *)
Definition truthy (s : string) : bool :=
  match s with EmptyString => false | String _ _ => true end.

End PyStr.

(** ** Exceptions and outcomes *)

Inductive exn :=
| KeyError (key : string)
    (* [d[k]] on a missing key *)
| FormatError (field : string)
    (* [str.format]: a replacement field that cannot be filled, or a
       stray brace *)
| APIError (what : string)
    (* a collaborator failed: the speech API, the file system *).

Inductive outcome (A : Type) :=
| Returned (a : A)
| Raised (e : exn).
Arguments Returned {A} a.
Arguments Raised {A} e.

(** [template.format(name=name)], for the templates made of literal text,
    the escapes [{{] and [}}], and the field [{name}].  [field] is [None]
    while literal text is read and [Some f] inside a replacement field of
    which [f] has been read so far.

    Any other field is answered by [FormatError]: Python raises for a
    field naming another keyword or a position ([KeyError], [IndexError])
    and for an unbalanced brace ([ValueError]).  Fields that carry a
    conversion, a format specification or an attribute or index lookup
    ([{name!r}], [{name:>8}], [{name[0]}]) are outside the fragment that is
    interpreted here and get the same answer. *)
Fixpoint format_from (name : string) (field : option string) (s : string)
  : outcome string :=
  match s with
  | EmptyString =>
      match field with
      | None => Returned EmptyString
      | Some f => Raised (FormatError f)
      end
  | String c s' =>
      match field with
      | None =>
          if Ascii.eqb c "{" then
            match s' with
            | String "{"%char s'' =>
                match format_from name None s'' with
                | Returned r => Returned (String "{"%char r)
                | Raised e => Raised e
                end
            | _ => format_from name (Some EmptyString) s'
            end
          else if Ascii.eqb c "}" then
            match s' with
            | String "}"%char s'' =>
                match format_from name None s'' with
                | Returned r => Returned (String "}"%char r)
                | Raised e => Raised e
                end
            | _ => Raised (FormatError "}")
            end
          else
            match format_from name None s' with
            | Returned r => Returned (String c r)
            | Raised e => Raised e
            end
      | Some f =>
          if Ascii.eqb c "}" then
            if String.eqb f "name" then
              match format_from name None s' with
              | Returned r => Returned (name +:+ r)
              | Raised e => Raised e
              end
            else Raised (FormatError f)
          else format_from name (Some (f +:+ String c EmptyString)) s'
      end
  end.

Definition format (template name : string) : outcome string :=
  format_from name None template.

(** ** models/schemas.py *)

Inductive ParticipantRole :=
| ORGANIZER | PRESENTER | ATTENDEE | PRODUCER | COORGANIZER.

(** [datetime] values: microseconds since the epoch. *)
Definition datetime := Z.

Record ParticipantInfo := {
  id : string;
  display_name : string;
  email : option string;
  role : ParticipantRole;
  is_muted : bool;
  joined_at : datetime
}.

Record MeetingInfo := {
  meeting_id : string;
  organizer_id : string;
  subject : option string;
  participants : list ParticipantInfo;
  started_at : option datetime
}.

Record GreetingRequest := {
  participant_name : string;
  language : string;
  custom_message : option string
}.

(** [duration_seconds] is a float and [created_at] a clock reading that no
    caller inspects; the record keeps the two fields that flow on. *)
Record AudioResponse := {
  audio_url : string;
  text_content : string
}.

(** An opaque handle of the bot framework. *)
Record ConversationReference := {
  channel_id : string;
  conversation_id : string
}.

(** ** services/openai_service.py: text and voice *)

(** The dictionary [greetings] of [generate_greeting_text], built from the
    participant's name. *)
Definition greetings (name : string) : gmap string string :=
  <["fr-FR" := "Bonjour, " +:+ name]>
  (<["es-ES" := "Buenos dÃ­as, " +:+ name]>
  (<["en-US" := "Good morning, " +:+ name]>
  (<["pt-BR" := "Bom dia, " +:+ name]> ∅))).

(** [greetings["pt-BR"]], the default handed to [dict.get]. *)
Definition greetings_default (name : string) : outcome string :=
  match greetings name !! "pt-BR" with
  | Some g => Returned g
  | None => Raised (KeyError "pt-BR")
  end.

Definition generate_greeting_text (greeting_request : GreetingRequest)
  : outcome string :=
  let name := participant_name greeting_request in
  let from_table :=
    match greetings_default name with
    | Returned d =>
        Returned (default d (greetings name !! language greeting_request))
    | Raised e => Raised e
    end in
  match custom_message greeting_request with
  | Some template =>
      if PyStr.truthy template then format template name else from_table
  | None => from_table
  end.

(** The dictionary [voice_mapping] of [generate_greeting_audio]. *)
Definition voice_mapping : gmap string string :=
  <["fr-FR" := "onyx"]>
  (<["es-ES" := "fable"]>
  (<["en-US" := "echo"]>
  (<["pt-BR" := "alloy"]> ∅))).

(** The languages that the two tables know. *)
Definition supported_languages : list string :=
  ["pt-BR"; "en-US"; "es-ES"; "fr-FR"].

(** [voice_mapping.get(language, "alloy")] *)
Definition selected_voice (language : string) : string :=
  default "alloy" (voice_mapping !! language).

(** ** The service state, the trace, and the monad of the handlers *)

(** [TeamsService.__init__]: the three dictionaries of the service. *)
Record TeamsService := {
  active_meetings : gmap string MeetingInfo;
  participant_cache : gmap string (gset string);
  conversation_references : gmap string ConversationReference
}.

Definition TeamsService_init : TeamsService :=
  {| active_meetings := ∅; participant_cache := ∅;
     conversation_references := ∅ |}.

(** What a handler lets the outside see: log records, the request sent to
    the speech API, the file written, the chat message built. *)
Inductive event :=
| LogInfo (msg : string) (about : list string)
| LogError (msg : string) (about : list string) (e : exn)
| SpeechCreate (text voice : string)
| WriteBytes (path : string)
| MessageText (meeting_id text : string).

(** What the outside answers during one handler call: the clock, the
    identifier drawn by [uuid.uuid4()], the speech API ([None]: the call
    raises), the file system ([false]: the write raises), and the
    language that [settings.default_greeting_language] is set to. *)
Record Env := {
  utcnow : datetime;
  uuid4 : string;
  speech_create : string → string → option string;
  write_bytes : string → string → bool;
  default_greeting_language : string
}.

Record World := {
  service : TeamsService;
  trace : list event
}.

Definition M (A : Type) : Type := World → outcome A * World.

Definition ret {A} (a : A) : M A := λ w, (Returned a, w).

Definition bind {A B} (m : M A) (k : A → M B) : M B :=
  λ w, match m w with
       | (Returned a, w') => k a w'
       | (Raised e, w') => (Raised e, w')
       end.

Definition raise {A} (e : exn) : M A := λ w, (Raised e, w).

(** [try: body  except Exception as e: handler(e)] *)
Definition try_except {A} (body : M A) (handler : exn → M A) : M A :=
  λ w, match body w with
       | (Returned a, w') => (Returned a, w')
       | (Raised e, w') => handler e w'
       end.

Definition get_service : M TeamsService := λ w, (Returned (service w), w).

Definition modify_service (f : TeamsService → TeamsService) : M unit :=
  λ w, (Returned tt, {| service := f (service w); trace := trace w |}).

Definition emit (ev : event) : M unit :=
  λ w, (Returned tt, {| service := service w; trace := trace w ++ [ev] |}).

Definition lift {A} (o : outcome A) : M A := λ w, (o, w).

(** The handlers are written with stdpp's monad notation:
    [x ← m; k] and [m;; k]. *)
#[global] Instance M_ret : MRet M := @ret.
#[global] Instance M_bind : MBind M := λ A B k m, bind m k.

(** Writes to one dictionary of the service. *)
Definition with_active_meetings (f : gmap string MeetingInfo → gmap string MeetingInfo)
    (s : TeamsService) : TeamsService :=
  {| active_meetings := f (active_meetings s);
     participant_cache := participant_cache s;
     conversation_references := conversation_references s |}.

Definition with_participant_cache (f : gmap string (gset string) → gmap string (gset string))
    (s : TeamsService) : TeamsService :=
  {| active_meetings := active_meetings s;
     participant_cache := f (participant_cache s);
     conversation_references := conversation_references s |}.

Definition with_conversation_references
    (f : gmap string ConversationReference → gmap string ConversationReference)
    (s : TeamsService) : TeamsService :=
  {| active_meetings := active_meetings s;
     participant_cache := participant_cache s;
     conversation_references := f (conversation_references s) |}.

(** [d[k]]: the value, or [KeyError]. *)
Definition subscript {V} (d : gmap string V) (k : string) : M V :=
  match d !! k with
  | Some v => ret v
  | None => raise (KeyError k)
  end.

(** Updates of the [MeetingInfo] object that a dictionary entry holds. *)
Definition append_participant (p : ParticipantInfo) (m : MeetingInfo) : MeetingInfo :=
  {| meeting_id := meeting_id m; organizer_id := organizer_id m;
     subject := subject m; participants := participants m ++ [p];
     started_at := started_at m |}.

Definition set_participants (ps : list ParticipantInfo) (m : MeetingInfo) : MeetingInfo :=
  {| meeting_id := meeting_id m; organizer_id := organizer_id m;
     subject := subject m; participants := ps;
     started_at := started_at m |}.

(** [k in d] *)
Definition has_key {V} (d : gmap string V) (k : string) : bool :=
  bool_decide (is_Some (d !! k)).

(** ** services/openai_service.py: synthesis *)

Definition temp_dir : string := "/tmp/teams_bot_audio".

Definition generate_speech_audio (env : Env) (text voice : string)
  : M AudioResponse :=
  try_except
    (emit (LogInfo "Generating speech audio" [text; voice]);;
     let audio_id := uuid4 env in
     let audio_file_path := temp_dir +:+ "/" +:+ audio_id +:+ ".mp3" in
     emit (SpeechCreate text voice);;
     response ← match speech_create env text voice with
                 | Some content => ret content
                 | None => raise (APIError "audio.speech.create")
                 end;
     emit (WriteBytes audio_file_path);;
     (if write_bytes env audio_file_path response then ret tt
      else raise (APIError "write_bytes"));;
     emit (LogInfo "Speech audio generated successfully" [audio_file_path]);;
     ret {| audio_url := "file://" +:+ audio_file_path;
            text_content := text |})
    (λ e, emit (LogError "Failed to generate speech audio" [text] e);;
          raise e).

Definition generate_greeting_audio (env : Env) (greeting_request : GreetingRequest)
  : M AudioResponse :=
  try_except
    (greeting_text ← lift (generate_greeting_text greeting_request);
     let selected := selected_voice (language greeting_request) in
     audio_response ← generate_speech_audio env greeting_text selected;
     emit (LogInfo "Greeting audio generated"
             [participant_name greeting_request; language greeting_request;
              greeting_text]);;
     ret audio_response)
    (λ e, emit (LogError "Failed to generate greeting audio"
                  [participant_name greeting_request] e);;
          raise e).

(** ** services/teams_service.py *)

Definition _log_bot_activity (meeting_id activity_type : string)
    (participant_id : option string) : M unit :=
  emit (LogInfo "Bot activity logged"
          ([activity_type; meeting_id] ++ option_list participant_id)).

(** The placeholder delivery: the chat message is built when the meeting
    has a conversation reference, and sent nowhere. *)
Definition _play_audio_in_meeting (meeting_id : string)
    (audio_response : AudioResponse) : M unit :=
  emit (LogInfo "Playing audio in meeting"
          [meeting_id; audio_url audio_response; text_content audio_response]);;
  svc ← get_service;
  if has_key (conversation_references svc) meeting_id then
    _conversation_ref ← subscript (conversation_references svc) meeting_id;
    emit (MessageText meeting_id ("ðŸŽµ " +:+ text_content audio_response))
  else ret tt.

Definition _generate_and_play_greeting (env : Env) (meeting_id : string)
    (participant : ParticipantInfo) : M unit :=
  try_except
    (let greeting_request :=
       {| participant_name := display_name participant;
          language := default_greeting_language env;
          custom_message := None |} in
     audio_response ← generate_greeting_audio env greeting_request;
     _play_audio_in_meeting meeting_id audio_response;;
     emit (LogInfo "Greeting played successfully"
             [meeting_id; display_name participant]))
    (λ e, emit (LogError "Failed to generate and play greeting"
                  [meeting_id; display_name participant] e)).

Definition _cleanup_meeting (meeting_id : string) : M unit :=
  try_except
    (svc ← get_service;
     (if has_key (active_meetings svc) meeting_id
      then modify_service (with_active_meetings (delete meeting_id))
      else ret tt);;
     svc ← get_service;
     (if has_key (participant_cache svc) meeting_id
      then modify_service (with_participant_cache (delete meeting_id))
      else ret tt);;
     svc ← get_service;
     (if has_key (conversation_references svc) meeting_id
      then modify_service (with_conversation_references (delete meeting_id))
      else ret tt);;
     emit (LogInfo "Meeting cleaned up" [meeting_id]))
    (λ e, emit (LogError "Failed to cleanup meeting" [meeting_id] e)).

(** The block "Initialize meeting if not exists" with which
    [handle_meeting_join] starts. *)
Definition initialize_meeting (env : Env) (meeting_id : string) : M unit :=
  svc ← get_service;
  if negb (has_key (active_meetings svc) meeting_id) then
    modify_service (with_active_meetings
      (<[meeting_id := {| meeting_id := meeting_id;
                          organizer_id := "unknown";  (* Will be updated when available *)
                          subject := None;
                          participants := [];
                          started_at := Some (utcnow env) |}]>));;
    modify_service (with_participant_cache (<[meeting_id := ∅]>))
  else ret tt.

Definition handle_meeting_join (env : Env) (meeting_id : string)
    (participant : ParticipantInfo) : M unit :=
  try_except
    (emit (LogInfo "Participant joined meeting"
             [meeting_id; display_name participant]);;
     initialize_meeting env meeting_id;;
     svc ← get_service;
     _meeting ← subscript (active_meetings svc) meeting_id;
     (* Check if this is a new participant (not rejoining) *)
     cached ← subscript (participant_cache svc) meeting_id;
     let is_new_participant := bool_decide (id participant ∉ cached) in
     if is_new_participant then
       modify_service (with_participant_cache
         (alter (λ ids, ids ∪ {[id participant]}) meeting_id));;
       modify_service (with_active_meetings
         (alter (append_participant participant) meeting_id));;
       _generate_and_play_greeting env meeting_id participant;;
       _log_bot_activity meeting_id "participant_joined"
         (Some (id participant))
     else ret tt)
    (λ e, emit (LogError "Failed to handle meeting join"
                  [meeting_id; display_name participant] e)).

Definition handle_meeting_leave (meeting_id participant_id : string) : M unit :=
  try_except
    (emit (LogInfo "Participant left meeting" [meeting_id; participant_id]);;
     svc ← get_service;
     if has_key (active_meetings svc) meeting_id then
       _meeting ← subscript (active_meetings svc) meeting_id;
       (* Remove from participant cache *)
       (if has_key (participant_cache svc) meeting_id then
          modify_service (with_participant_cache
            (alter (λ ids, ids ∖ {[participant_id]}) meeting_id))
        else ret tt);;
       (* Remove from participants list *)
       modify_service (with_active_meetings
         (alter (λ m, set_participants
                        (filter (λ p, id p ≠ participant_id) (participants m)) m)
                meeting_id));;
       _log_bot_activity meeting_id "participant_left" (Some participant_id);;
       (* Clean up meeting if empty: [meeting] is the object that the
          dictionary holds, read here in its current state *)
       svc ← get_service;
       meeting ← subscript (active_meetings svc) meeting_id;
       match participants meeting with
       | [] => _cleanup_meeting meeting_id
       | _ :: _ => ret tt
       end
     else ret tt)
    (λ e, emit (LogError "Failed to handle meeting leave"
                  [meeting_id; participant_id] e)).

Definition get_meeting_info (meeting_id : string) : M (option MeetingInfo) :=
  svc ← get_service;
  ret (active_meetings svc !! meeting_id).

Definition add_conversation_reference (meeting_id : string)
    (conversation_ref : ConversationReference) : M unit :=
  modify_service (with_conversation_references (<[meeting_id := conversation_ref]>)).

(** ** bot/teams_bot.py *)

(** The objects of the bot framework that the handlers probe with
    [getattr]: a field is [None] when the object lacks the attribute, and
    holds the attribute's string otherwise. *)
Module Teams.
Record ChannelAccount := {
  id : option string;
  name : option string;
  user_principal_name : option string;
  email : option string
}.
Record MeetingDetails := { role : option string }.
Record MeetingParticipant := {
  user : ChannelAccount;
  meeting : MeetingDetails
}.
Record MeetingInfo := { meeting_info_id : option string }.
End Teams.

(** [a or b] on optional strings: [a] when it is truthy, else [b]. *)
Definition or_else (a b : option string) : option string :=
  match a with
  | Some s => if PyStr.truthy s then a else b
  | None => b
  end.

Definition _convert_teams_participant (env : Env)
    (teams_participant : Teams.MeetingParticipant) : ParticipantInfo :=
  let user := Teams.user teams_participant in
  let meeting := Teams.meeting teams_participant in
  let participant_id := default "unknown" (Teams.id user) in
  let display_name := default "Unknown User" (Teams.name user) in
  let email := or_else (Teams.user_principal_name user) (Teams.email user) in
  let role :=
    match Teams.role meeting with
    | Some r =>
        let role_str := PyStr.lower r in
        if bool_decide (role_str ∈ ["organizer"; "coorganizer"]) then
          if bool_decide (role_str = "organizer") then ORGANIZER else COORGANIZER
        else if bool_decide (role_str = "presenter") then PRESENTER
        else ATTENDEE
    | None => ATTENDEE
    end in
  {| id := participant_id; display_name := display_name; email := email;
     role := role; is_muted := false; joined_at := utcnow env |}.

Definition bot_identifiers : list string :=
  ["teamsgreetingbot"; "greeting bot"; "bot"; "@bot"].

Definition _is_bot_participant (participant : ParticipantInfo) : bool :=
  let display_name_lower := PyStr.lower (display_name participant) in
  existsb (λ identifier, PyStr.contains identifier display_name_lower)
          bot_identifiers.

(** The body of the [for] loop of [on_teams_meeting_participants_join];
    [env i] is what the outside answers during the [i]-th iteration. *)
Fixpoint join_each (env : nat → Env) (i : nat) (meeting_id : string)
    (joined : list Teams.MeetingParticipant) : M unit :=
  match joined with
  | [] => ret tt
  | participant :: rest =>
      let participant_info := _convert_teams_participant (env i) participant in
      if _is_bot_participant participant_info then
        join_each env (S i) meeting_id rest
      else
        handle_meeting_join (env i) meeting_id participant_info;;
        join_each env (S i) meeting_id rest
  end.

Definition on_teams_meeting_participants_join (env : nat → Env)
    (meeting_participants_joined : list Teams.MeetingParticipant)
    (meeting_info : Teams.MeetingInfo) : M unit :=
  try_except
    (let meeting_id := default "unknown" (Teams.meeting_info_id meeting_info) in
     emit (LogInfo "Teams meeting participants joined" [meeting_id]);;
     join_each env 0 meeting_id meeting_participants_joined)
    (λ e, emit (LogError "Error handling meeting participants join" [] e)).

Fixpoint leave_each (meeting_id : string)
    (left : list Teams.MeetingParticipant) : M unit :=
  match left with
  | [] => ret tt
  | participant :: rest =>
      let participant_id := default "unknown" (Teams.id (Teams.user participant)) in
      handle_meeting_leave meeting_id participant_id;;
      leave_each meeting_id rest
  end.

Definition on_teams_meeting_participants_leave
    (meeting_participants_left : list Teams.MeetingParticipant)
    (meeting_info : Teams.MeetingInfo) : M unit :=
  try_except
    (let meeting_id := default "unknown" (Teams.meeting_info_id meeting_info) in
     emit (LogInfo "Teams meeting participants left" [meeting_id]);;
     leave_each meeting_id meeting_participants_left)
    (λ e, emit (LogError "Error handling meeting participants leave" [] e)).

(** ** Runs of the service *)

(** The world a handler leaves, and whether it returned. *)
Definition exec {A} (m : M A) (w : World) : World := snd (m w).
Definition returns {A} (m : M A) (w : World) : Prop :=
  ∃ a, fst (m w) = Returned a.

Definition World_init : World :=
  {| service := TeamsService_init; trace := [] |}.

(** One operation of the tracker, as its callers issue them. *)
Inductive operation :=
| Join (env : Env) (meeting_id : string) (participant : ParticipantInfo)
| Leave (meeting_id participant_id : string)
| Cleanup (meeting_id : string)
| SetConversationReference (meeting_id : string) (ref : ConversationReference).

Definition perform (op : operation) : M unit :=
  match op with
  | Join env m p => handle_meeting_join env m p
  | Leave m pid => handle_meeting_leave m pid
  | Cleanup m => _cleanup_meeting m
  | SetConversationReference m ref => add_conversation_reference m ref
  end.

Definition run (ops : list operation) (w : World) : World :=
  foldl (λ w op, exec (perform op) w) w ops.

(** The states that some sequence of operations reaches from the empty
    service. *)
Definition reachable (w : World) : Prop :=
  ∃ ops, w = run ops World_init.

(** The ids on a meeting's participant list, in list order. *)
Definition participant_ids (m : MeetingInfo) : list string :=
  id <$> participants m.

(** Index and list agree: every active meeting has an index entry, which
    is the set of the ids on the meeting's list, and no id is listed
    twice. *)
Definition consistent (s : TeamsService) : Prop :=
  ∀ m mt, active_meetings s !! m = Some mt →
    participant_cache s !! m = Some (list_to_set (participant_ids mt)) ∧
    NoDup (participant_ids mt).

(** The requests that reached the speech API, one per greeting
    dispatched. *)
Definition is_dispatch (ev : event) : bool :=
  match ev with SpeechCreate _ _ => true | _ => false end.

Definition dispatches (t : list event) : nat :=
  length (filter (λ ev, is_dispatch ev = true) t).

(** The events that a handler appended to the trace. *)
Definition emitted {A} (m : M A) (w : World) : list event :=
  drop (length (trace w)) (trace (exec m w)).

(** What membership means on each side: [x] is in the index entry of
    meeting [m], [x] is the id of a participant on the list of [m]. *)
Definition indexed (s : TeamsService) (m x : string) : Prop :=
  ∃ ids, participant_cache s !! m = Some ids ∧ x ∈ ids.

Definition listed (s : TeamsService) (m x : string) : Prop :=
  ∃ mt, active_meetings s !! m = Some mt ∧ x ∈ participant_ids mt.

(** Every active meeting has somebody on its list. *)
Definition populated (s : TeamsService) : Prop :=
  ∀ m mt, active_meetings s !! m = Some mt → participants mt ≠ [].

(** The id and the display name under which a participant of a join event
    reaches the tracker, and whether that name, in small letters, contains
    "bot". *)
Definition joined_id (tp : Teams.MeetingParticipant) : string :=
  default "unknown" (Teams.id (Teams.user tp)).

Definition joined_name (tp : Teams.MeetingParticipant) : string :=
  default "Unknown User" (Teams.name (Teams.user tp)).

Definition bot_named (tp : Teams.MeetingParticipant) : bool :=
  PyStr.contains "bot" (PyStr.lower (joined_name tp)).

(** What the proofs carry from state to state. *)
Definition invariant (s : TeamsService) : Prop :=
  consistent s ∧ populated s.

(** The greeting step fails: the part of the dispatcher that produces the
    greeting (text, then synthesis) raises, in whatever world it runs. *)
Definition greeting_raises (env : Env) (participant : ParticipantInfo) : Prop :=
  ∀ w, ∃ e w',
    generate_greeting_audio env
      {| participant_name := display_name participant;
         language := default_greeting_language env;
         custom_message := None |} w = (Raised e, w').

(** Sample values for the worked instances: two participants, an outside
    whose speech API is down, one whose speech API answers, and the world
    after Ana has joined meeting "m1". *)
Definition ana : ParticipantInfo :=
  {| id := "p1"; display_name := "Ana"; email := None; role := ATTENDEE;
     is_muted := false; joined_at := 0%Z |}.

Definition rui : ParticipantInfo :=
  {| id := "p2"; display_name := "Rui"; email := None; role := ATTENDEE;
     is_muted := false; joined_at := 5%Z |}.

Definition env_down : Env :=
  {| utcnow := 10%Z; uuid4 := "0001";
     speech_create := λ _ _, None; write_bytes := λ _ _, true;
     default_greeting_language := "en-US" |}.

Definition env_up : Env :=
  {| utcnow := 20%Z; uuid4 := "0002";
     speech_create := λ _ _, Some "mp3"; write_bytes := λ _ _, true;
     default_greeting_language := "pt-BR" |}.

Definition ana_in_m1 : World := run [Join env_down "m1" ana] World_init.

(** A person whose name happens to contain the word. *)
Definition abbott : Teams.MeetingParticipant :=
  {| Teams.user := {| Teams.id := Some "p7"; Teams.name := Some "Jo Abbott";
                      Teams.user_principal_name := None;
                      Teams.email := None |};
     Teams.meeting := {| Teams.role := Some "Presenter" |} |}.

(** [m] run in [w] returns [a], leaves the service [s] and appends [t] to
    the trace. *)
Definition finishes {A} (m : M A) (w : World) (a : A) (s : TeamsService)
    (t : list event) : Prop :=
  m w = (Returned a, {| service := s; trace := trace w ++ t |}).

(** ** Further notions for the properties of the tracker *)

(** The meeting that an operation addresses. *)
Definition operation_meeting (op : operation) : string :=
  match op with
  | Join _ m _ => m
  | Leave m _ => m
  | Cleanup m => m
  | SetConversationReference m _ => m
  end.

(** The record of an active meeting as the tracker makes it: filed under
    its own id, organizer never learned, no subject, a start time. *)
Definition record_shape (s : TeamsService) : Prop :=
  ∀ m mt, active_meetings s !! m = Some mt →
    meeting_id mt = m ∧ organizer_id mt = "unknown" ∧ subject mt = None ∧
    is_Some (started_at mt).

(** The index has an entry for the active meetings and for no other. *)
Definition same_keys (s : TeamsService) : Prop :=
  ∀ m, is_Some (participant_cache s !! m) ↔ is_Some (active_meetings s !! m).

(** How many participants meeting [m] lists; none when it is not active. *)
Definition headcount (s : TeamsService) (m : string) : nat :=
  match active_meetings s !! m with
  | Some mt => length (participants mt)
  | None => 0
  end.

(** A replacement field that is a plain name: no brace, and none of the
    characters that start a conversion, a format specification or a
    lookup. *)
Fixpoint plain_field (f : string) : bool :=
  match f with
  | EmptyString => true
  | String c f' =>
      negb (Ascii.eqb c "{") && negb (Ascii.eqb c "}") &&
      negb (Ascii.eqb c "!") && negb (Ascii.eqb c ":") &&
      negb (Ascii.eqb c ".") && negb (Ascii.eqb c "[") &&
      plain_field f'
  end.

(** The speech requests among the events of a trace. *)
Definition speech_requests (t : list event) : list event :=
  filter (λ ev, is_dispatch ev = true) t.

(** The text that the dispatcher has synthesised for a participant: the
    phrase of the configured language, or of pt-BR, with the display
    name. *)
Definition greeting_for (env : Env) (participant : ParticipantInfo) : string :=
  default ("Bom dia, " +:+ display_name participant)
    (greetings (display_name participant) !! default_greeting_language env).

(** The synthesis of the greeting for a participant succeeds: the speech
    API answers and the audio file is written. *)
Definition synthesis_succeeds (env : Env) (participant : ParticipantInfo) : Prop :=
  ∃ content,
    speech_create env (greeting_for env participant)
      (selected_voice (default_greeting_language env)) = Some content ∧
    write_bytes env (temp_dir +:+ "/" +:+ uuid4 env +:+ ".mp3") content = true.

(** What the dispatcher's events say about a greeting: one speech request,
    with the greeting text and the voice of the configured language; a
    chat message only for the meeting in hand, only when it has a
    conversation reference and the synthesis succeeded, and then with the
    greeting text. *)
Definition greeting_events (env : Env) (m : string) (p : ParticipantInfo)
    (refs : gmap string ConversationReference) (t : list event) : Prop :=
  speech_requests t =
    [SpeechCreate (greeting_for env p)
       (selected_voice (default_greeting_language env))] ∧
  ∀ m' x, MessageText m' x ∈ t ↔
    m' = m ∧ x = "ðŸŽµ " +:+ greeting_for env p ∧
    is_Some (refs !! m) ∧ synthesis_succeeds env p.

(** ** routers/bot_routes.py *)

Module bot_routes.

(** What a route answers with instead of a value. *)
Record HTTPException := {
  status_code : nat;
  detail : string
}.

Definition Route (A : Type) : Type := World → (A + HTTPException) * World.

(** [GET /meetings/{meeting_id}].  The [HTTPException] raised inside the
    [try] is passed on by the first [except] clause; any other exception is
    logged and turned into a 500. *)
Definition get_meeting_info (meeting_id : string) : Route MeetingInfo :=
  λ w,
    match get_meeting_info meeting_id w with
    | (Returned (Some meeting), w') => (inl meeting, w')
    | (Returned None, w') =>
        (inr {| status_code := 404; detail := "Meeting not found" |}, w')
    | (Raised e, w') =>
        (inr {| status_code := 500; detail := "Failed to get meeting info" |},
         {| service := service w';
            trace := trace w' ++
              [LogError "Error getting meeting info" [meeting_id] e] |})
    end.

Section test_greeting.

(** [str(e)], the message of an exception. *)
Variable str : exn → string.


End test_greeting.

End bot_routes.

(** * Properties *)

(** ** Strings *)

Section strings.

Local Arguments String.append !_ _ / : simpl nomatch.

Lemma startswith_app_l p q s :
  PyStr.startswith (p +:+ q) s = true → PyStr.startswith p s = true.
Proof.
  revert s. induction p as [|a p IH]; intros [|b s]; simpl; try done.
  intros [Hab Hp]%andb_true_iff. rewrite Hab. simpl. by apply IH.
Qed.

Lemma startswith_nil s : PyStr.startswith "" s = true.
Proof. by destruct s. Qed.

Lemma contains_tail p c s :
  PyStr.contains p s = true → PyStr.contains p (String c s) = true.
Proof. simpl. intros ->. apply orb_true_r. Qed.

Lemma contains_startswith p s :
  PyStr.startswith p s = true → PyStr.contains p s = true.
Proof. destruct s; simpl; intros ->; done. Qed.

(** A string that contains [a p] contains [p]. *)
Lemma contains_drop_head a p s :
  PyStr.contains (String a p) s = true → PyStr.contains p s = true.
Proof.
  induction s as [|b s IH]; simpl; [done|].
  intros [[_ Hp]%andb_true_iff | Hs]%orb_true_iff.
  - apply orb_true_iff. right. by apply contains_startswith.
  - apply orb_true_iff. right. by apply IH.
Qed.

Lemma contains_app_l p q s :
  PyStr.contains (p +:+ q) s = true → PyStr.contains p s = true.
Proof.
  induction s as [|b s IH].
  - destruct p; simpl; done.
  - change (PyStr.contains (p +:+ q) (String b s))
      with (PyStr.startswith (p +:+ q) (String b s) || PyStr.contains (p +:+ q) s).
    change (PyStr.contains p (String b s))
      with (PyStr.startswith p (String b s) || PyStr.contains p s).
    intros [H | H]%orb_true_iff; apply orb_true_iff.
    + left. by eapply startswith_app_l.
    + right. by apply IH.
Qed.

(** Literal text passes through [format] unchanged. *)
Lemma format_from_literal name pre rest :
  PyStr.brace_free pre = true →
  format_from name None (pre +:+ rest) =
  match format_from name None rest with
  | Returned r => Returned (pre +:+ r)
  | Raised e => Raised e
  end.
Proof.
  induction pre as [|c pre IH]; simpl.
  - intros _. by destruct (format_from name None rest).
  - intros [[Ho Hc]%andb_true_iff Hpre]%andb_true_iff.
    apply negb_true_iff in Ho, Hc. rewrite Ho, Hc, (IH Hpre).
    by destruct (format_from name None rest).
Qed.

Lemma string_app_empty_r s : s +:+ "" = s.
Proof. induction s; simpl; congruence. Qed.

Lemma format_literal name s :
  PyStr.brace_free s = true → format s name = Returned s.
Proof.
  intros H. unfold format.
  rewrite <- (string_app_empty_r s) at 1.
  rewrite (format_from_literal _ _ _ H). simpl.
  by rewrite string_app_empty_r.
Qed.



End strings.

(** ** The text and voice selector *)

Section selector.

Lemma greetings_default_pt name :
  greetings_default name = Returned ("Bom dia, " +:+ name).
Proof. reflexivity. Qed.


Lemma voice_unsupported lang :
  lang ∉ supported_languages → voice_mapping !! lang = None.
Proof.
  unfold supported_languages, voice_mapping.
  rewrite !not_elem_of_cons. intros (? & ? & ? & ? & _).
  by rewrite !lookup_insert_ne, lookup_empty.
Qed.

(** Without a usable template the text comes from the table, whatever
    the language. *)
Lemma generate_greeting_text_table name lang :
  generate_greeting_text
    {| participant_name := name; language := lang; custom_message := None |} =
  Returned (default ("Bom dia, " +:+ name) (greetings name !! lang)).
Proof. reflexivity. Qed.

End selector.




(** C9: the four supported languages get four different voices, and every
    other language gets the voice of pt-BR. *)
Theorem selected_voice_distinct_default (lang : string) :
  NoDup (selected_voice <$> supported_languages) ∧
  (lang ∉ supported_languages → selected_voice lang = selected_voice "pt-BR").
Proof.
  split.
  - change (NoDup ["alloy"; "echo"; "fable"; "onyx"]).
    repeat (apply NoDup_cons; split;
            [rewrite ?not_elem_of_cons;
             repeat split; [discriminate..|apply not_elem_of_nil] |]).
    apply NoDup_nil_2.
  - intros Hlang. unfold selected_voice.
    by rewrite (voice_unsupported _ Hlang).
Qed.

Lemma selected_voice_distinct_default_witness :
  ("de-DE" ∉ supported_languages) ∧ selected_voice "de-DE" = "alloy".
Proof.
  assert ("de-DE" ∉ supported_languages) as Hlang.
  { unfold supported_languages. rewrite !not_elem_of_cons.
    repeat split; [discriminate..|apply not_elem_of_nil]. }
  split; [exact Hlang|].
  exact (proj2 (selected_voice_distinct_default "de-DE") Hlang).
Defined.

(** ** The monad *)

Ltac munfold :=
  unfold mbind, M_bind, mret, M_ret, bind, ret, raise, try_except, emit,
    modify_service, get_service, lift, subscript.

Ltac trace_norm := rewrite <- ?app_assoc; simpl.

Section monad.

Lemma has_key_Some {V} (d : gmap string V) k v :
  d !! k = Some v → has_key d k = true.
Proof. intros H. apply bool_decide_eq_true_2. by exists v. Qed.

Lemma has_key_None {V} (d : gmap string V) k :
  d !! k = None → has_key d k = false.
Proof.
  intros H. apply bool_decide_eq_false_2. rewrite H. by intros [? ?].
Qed.

Lemma dispatches_app t1 t2 :
  dispatches (t1 ++ t2) = dispatches t1 + dispatches t2.
Proof. unfold dispatches. by rewrite filter_app, length_app. Qed.

Lemma dispatches_nil : dispatches [] = 0.
Proof. reflexivity. Qed.

Lemma dispatches_cons ev t :
  dispatches (ev :: t) = (if is_dispatch ev then 1 else 0) + dispatches t.
Proof.
  unfold dispatches. rewrite filter_cons.
  destruct (is_dispatch ev); by case_decide.
Qed.

Lemma finishes_exec {A} (m : M A) w a s t :
  finishes m w a s t →
  service (exec m w) = s ∧ trace (exec m w) = trace w ++ t ∧
  emitted m w = t ∧ returns m w.
Proof.
  unfold finishes, emitted, returns, exec. intros ->. simpl.
  split; [done|]. split; [done|].
  split; [by rewrite drop_app_length | by exists a].
Qed.

(** A [try] whose handler only logs never raises, whatever its body
    does. *)
Lemma try_except_log_returns (body : M unit) msg about w :
  returns (try_except body (λ e, emit (LogError msg about e))) w.
Proof.
  unfold returns, try_except. destruct (body w) as [[a | e] w']; simpl.
  - by exists a.
  - by exists tt.
Qed.

End monad.

(** ** The dispatcher *)

Section dispatcher.

Local Arguments generate_greeting_audio : simpl never.

(** Producing the greeting sends one request to the speech API and
    leaves the service alone, whether it returns or raises. *)
Lemma generate_greeting_audio_outcome env name lang w :
  ∃ o t,
    generate_greeting_audio env
      {| participant_name := name; language := lang;
         custom_message := None |} w =
    (o, {| service := service w; trace := trace w ++ t |}) ∧
    dispatches t = 1.
Proof.
  unfold generate_greeting_audio, generate_speech_audio.
  munfold. rewrite generate_greeting_text_table. simpl.
  destruct (speech_create env _ _) as [content|]; simpl.
  - destruct (write_bytes env _ content); simpl.
    + do 2 eexists. split; [trace_norm; reflexivity|reflexivity].
    + do 2 eexists. split; [trace_norm; reflexivity|reflexivity].
  - do 2 eexists. split; [trace_norm; reflexivity|reflexivity].
Qed.

Lemma play_audio_finishes m audio w :
  ∃ t, finishes (_play_audio_in_meeting m audio) w tt (service w) t ∧
       dispatches t = 0.
Proof.
  unfold finishes, _play_audio_in_meeting. munfold. simpl.
  destruct (conversation_references (service w) !! m) as [ref|] eqn:Href.
  - rewrite (has_key_Some _ _ _ Href). unfold ret. simpl.
    eexists. split; [trace_norm; reflexivity|reflexivity].
  - rewrite (has_key_None _ _ Href). simpl.
    eexists. split; [trace_norm; reflexivity|reflexivity].
Qed.

(** The dispatcher returns whatever the speech API and the file system
    do, leaves the service as it found it, and sends one request to the
    speech API.  When the greeting step raises, the failure ends in the
    dispatcher's log. *)
Lemma greeting_finishes env m p w :
  ∃ t, finishes (_generate_and_play_greeting env m p) w tt (service w) t ∧
       dispatches t = 1 ∧
       (greeting_raises env p →
        ∃ e, LogError "Failed to generate and play greeting"
               [m; display_name p] e ∈ t).
Proof.
  unfold finishes, _generate_and_play_greeting. munfold.
  destruct (generate_greeting_audio_outcome env (display_name p)
              (default_greeting_language env) w) as (o & t & Hg & Hd).
  rewrite Hg. destruct o as [audio | e].
  - destruct (play_audio_finishes m audio
                {| service := service w; trace := trace w ++ t |})
      as (t' & Hp & Hd').
    unfold finishes in Hp. rewrite Hp. simpl.
    eexists. split; [trace_norm; reflexivity|]. split.
    + rewrite !dispatches_app, Hd, Hd'. reflexivity.
    + intros Hr. destruct (Hr w) as (e & w' & He).
      rewrite Hg in He. discriminate He.
  - simpl. eexists. split; [trace_norm; reflexivity|]. split.
    + rewrite !dispatches_app, Hd. reflexivity.
    + intros _. exists e. rewrite elem_of_app. right. apply list_elem_of_here.
Qed.

End dispatcher.

(** ** The tracker, operation by operation *)

Section tracker.

Local Arguments _generate_and_play_greeting : simpl never.
Local Arguments _cleanup_meeting : simpl never.

Lemma alter_lookup_Some {V} (f : V → V) (d : gmap string V) k v :
  d !! k = Some v → alter f k d = <[k := f v]> d.
Proof.
  intros H. apply map_eq. intros j. destruct (decide (k = j)) as [<-|Hne].
  - by rewrite lookup_alter_eq, lookup_insert_eq, H.
  - by rewrite lookup_alter_ne, lookup_insert_ne.
Qed.

Lemma alter_lookup_None {V} (f : V → V) (d : gmap string V) k :
  d !! k = None → alter f k d = d.
Proof.
  intros H. apply map_eq. intros j. destruct (decide (k = j)) as [<-|Hne].
  - by rewrite lookup_alter_eq, H.
  - by rewrite lookup_alter_ne.
Qed.

Lemma delete_alter_eq {V} (f : V → V) (d : gmap string V) k :
  delete k (alter f k d) = delete k d.
Proof.
  apply map_eq. intros j. destruct (decide (k = j)) as [<-|Hne].
  - by rewrite !lookup_delete_eq.
  - by rewrite !lookup_delete_ne, lookup_alter_ne.
Qed.

(** [_cleanup_meeting] drops the meeting from the three dictionaries. *)
Lemma cleanup_finishes m w :
  finishes (_cleanup_meeting m) w tt
    {| active_meetings := delete m (active_meetings (service w));
       participant_cache := delete m (participant_cache (service w));
       conversation_references := delete m (conversation_references (service w)) |}
    [LogInfo "Meeting cleaned up" [m]].
Proof.
  unfold finishes, _cleanup_meeting. munfold.
destruct w as [[A C R] t]. simpl.
destruct (A !! m) eqn:HA; destruct (C !! m) eqn:HC; destruct (R !! m) eqn:HR;
  repeat (rewrite ?(has_key_Some _ _ _ HA), ?(has_key_None _ _ HA),
            ?(has_key_Some _ _ _ HC), ?(has_key_None _ _ HC),
            ?(has_key_Some _ _ _ HR), ?(has_key_None _ _ HR);
          unfold with_active_meetings, with_participant_cache,
            with_conversation_references; simpl);
  rewrite ?(delete_id A), ?(delete_id C), ?(delete_id R) by done;
  reflexivity.
Qed.

(** A join that opens the meeting. *)
Lemma join_new_meeting env m p w :
  active_meetings (service w) !! m = None →
  ∃ t, finishes (handle_meeting_join env m p) w tt
         {| active_meetings :=
              <[m := {| meeting_id := m; organizer_id := "unknown";
                        subject := None; participants := [p];
                        started_at := Some (utcnow env) |}]>
                (active_meetings (service w));
            participant_cache :=
              <[m := {[id p]}]> (participant_cache (service w));
            conversation_references :=
              conversation_references (service w) |} t
       ∧ dispatches t = 1
       ∧ (greeting_raises env p →
          ∃ e, LogError "Failed to generate and play greeting"
                 [m; display_name p] e ∈ t).
Proof.
  intros HA. unfold finishes, handle_meeting_join, initialize_meeting. munfold.
  destruct w as [[A C R] t0]. simpl in *.
  rewrite (has_key_None _ _ HA). simpl.
  unfold with_active_meetings, with_participant_cache. simpl.
  rewrite !lookup_insert_eq. simpl.
  rewrite bool_decide_eq_true_2 by set_solver. simpl.
  rewrite !alter_insert_eq. simpl.
  match goal with
  | |- context [_generate_and_play_greeting env m p ?w1] =>
      destruct (greeting_finishes env m p w1) as (t & Hg & Hd & Hlog);
      unfold finishes in Hg; rewrite Hg
  end.
  simpl. unfold _log_bot_activity. munfold. simpl.
  eexists. split.
  - trace_norm. rewrite (left_id_L ∅ (∪)). reflexivity.
  - split; [rewrite ?dispatches_cons, ?dispatches_app, Hd; reflexivity|].
    intros Hr. destruct (Hlog Hr) as (e & He). exists e.
    rewrite elem_of_cons, elem_of_app. right. by left.
Qed.

(** A join of somebody new to a meeting that is open. *)
Lemma join_new_participant env m p w mt ids :
  active_meetings (service w) !! m = Some mt →
  participant_cache (service w) !! m = Some ids →
  id p ∉ ids →
  ∃ t, finishes (handle_meeting_join env m p) w tt
         {| active_meetings :=
              <[m := append_participant p mt]> (active_meetings (service w));
            participant_cache :=
              <[m := ids ∪ {[id p]}]> (participant_cache (service w));
            conversation_references :=
              conversation_references (service w) |} t
       ∧ dispatches t = 1
       ∧ (greeting_raises env p →
          ∃ e, LogError "Failed to generate and play greeting"
                 [m; display_name p] e ∈ t).
Proof.
  intros HA HC Hnew. unfold finishes, handle_meeting_join, initialize_meeting. munfold.
  destruct w as [[A C R] t0]. simpl in *.
  rewrite (has_key_Some _ _ _ HA). simpl. rewrite HA, HC. simpl.
  rewrite bool_decide_eq_true_2 by done. simpl.
  unfold with_active_meetings, with_participant_cache. simpl.
  rewrite (alter_lookup_Some _ _ _ _ HA), (alter_lookup_Some _ _ _ _ HC).
  match goal with
  | |- context [_generate_and_play_greeting env m p ?w1] =>
      destruct (greeting_finishes env m p w1) as (t & Hg & Hd & Hlog);
      unfold finishes in Hg; rewrite Hg
  end.
  simpl. unfold _log_bot_activity. munfold. simpl.
  eexists. split.
  - trace_norm. reflexivity.
  - split; [rewrite ?dispatches_cons, ?dispatches_app, Hd; reflexivity|].
    intros Hr. destruct (Hlog Hr) as (e & He). exists e.
    rewrite elem_of_cons, elem_of_app. right. by left.
Qed.

(** A join of somebody the index already has: nothing but a log line. *)
Lemma join_duplicate env m p w mt ids :
  active_meetings (service w) !! m = Some mt →
  participant_cache (service w) !! m = Some ids →
  id p ∈ ids →
  finishes (handle_meeting_join env m p) w tt (service w)
    [LogInfo "Participant joined meeting" [m; display_name p]].
Proof.
  intros HA HC Hdup. unfold finishes, handle_meeting_join, initialize_meeting. munfold.
  destruct w as [[A C R] t0]. simpl in *.
  rewrite (has_key_Some _ _ _ HA). simpl. rewrite HA, HC. simpl.
  rewrite bool_decide_eq_false_2 by (by intros []). reflexivity.
Qed.

(** A join into a meeting that has lost its index entry: the lookup
    raises, the handler logs, the service is as before. *)
Lemma join_no_index env m p w mt :
  active_meetings (service w) !! m = Some mt →
  participant_cache (service w) !! m = None →
  finishes (handle_meeting_join env m p) w tt (service w)
    [LogInfo "Participant joined meeting" [m; display_name p];
     LogError "Failed to handle meeting join" [m; display_name p]
       (KeyError m)].
Proof.
  intros HA HC. unfold finishes, handle_meeting_join, initialize_meeting. munfold.
  destruct w as [[A C R] t0]. simpl in *.
  rewrite (has_key_Some _ _ _ HA). simpl. rewrite HA, HC. simpl.
  trace_norm. reflexivity.
Qed.

(** A leave from a meeting that is not open. *)
Lemma leave_unknown m pid w :
  active_meetings (service w) !! m = None →
  finishes (handle_meeting_leave m pid) w tt (service w)
    [LogInfo "Participant left meeting" [m; pid]].
Proof.
  intros HA. unfold finishes, handle_meeting_leave. munfold.
  destruct w as [[A C R] t0]. simpl in *.
  rewrite (has_key_None _ _ HA). reflexivity.
Qed.

(** A leave from a meeting that is open: the id goes from the index and
    from the list, and the meeting goes when the list is left empty. *)
Lemma leave_known m pid w mt :
  active_meetings (service w) !! m = Some mt →
  ∃ t, finishes (handle_meeting_leave m pid) w tt
         (match filter (λ p, id p ≠ pid) (participants mt) with
          | [] =>
              {| active_meetings := delete m (active_meetings (service w));
                 participant_cache := delete m (participant_cache (service w));
                 conversation_references :=
                   delete m (conversation_references (service w)) |}
          | q :: rest =>
              {| active_meetings :=
                   <[m := set_participants (q :: rest) mt]>
                     (active_meetings (service w));
                 participant_cache :=
                   alter (λ ids, ids ∖ {[pid]}) m (participant_cache (service w));
                 conversation_references :=
                   conversation_references (service w) |}
          end) t
       ∧ dispatches t = 0.
Proof.
  intros HA. unfold finishes, handle_meeting_leave. munfold.
  destruct w as [[A C R] t0]. simpl in *.
  rewrite (has_key_Some _ _ _ HA). simpl. rewrite HA. simpl.
  destruct (C !! m) as [ids|] eqn:HC;
    [rewrite (has_key_Some _ _ _ HC) | rewrite (has_key_None _ _ HC)];
    simpl; unfold with_active_meetings, with_participant_cache,
      _log_bot_activity; munfold; simpl;
    rewrite (alter_lookup_Some _ _ _ _ HA), lookup_insert_eq; simpl;
    (destruct (filter (λ p, id p ≠ pid) (participants mt)) as [|q rest];
     [ match goal with
       | |- context [_cleanup_meeting m ?w1] =>
           pose proof (cleanup_finishes m w1) as Hc;
           unfold finishes in Hc; rewrite Hc
       end; simpl; rewrite delete_insert_eq, ?delete_alter_eq
     | rewrite ?(alter_lookup_None _ _ _ HC) ];
     eexists; (split; [trace_norm; reflexivity|reflexivity])).
Qed.

End tracker.

(** ** Invariants of the reachable states *)

Section invariants.

Lemma ids_of_filter pid (l : list ParticipantInfo) :
  list_to_set (id <$> filter (λ p, id p ≠ pid) l) =@{gset string}
  list_to_set (id <$> l) ∖ {[pid]}.
Proof.
  apply set_eq. intros x.
  rewrite elem_of_difference, !elem_of_list_to_set, !list_elem_of_fmap,
    not_elem_of_singleton.
  split.
  - intros (p & -> & [Hp Hin]%list_elem_of_filter). eauto.
  - intros [(p & -> & Hin) Hne]. exists p. split; [done|].
    by apply list_elem_of_filter.
Qed.

Lemma NoDup_ids_filter pid (l : list ParticipantInfo) :
  NoDup (id <$> l) → NoDup (id <$> filter (λ p, id p ≠ pid) l).
Proof.
  induction l as [|p l IH]; [done|].
  rewrite fmap_cons, NoDup_cons. intros [Hp Hl].
  rewrite filter_cons. case_decide; [|by apply IH].
  rewrite fmap_cons, NoDup_cons. split; [|by apply IH].
  rewrite list_elem_of_fmap. intros (q & Hq & [_ Hin]%list_elem_of_filter).
  apply Hp. rewrite list_elem_of_fmap. eauto.
Qed.

Lemma filter_absent pid (l : list ParticipantInfo) :
  pid ∉ id <$> l → filter (λ p, id p ≠ pid) l = l.
Proof.
  induction l as [|p l IH]; [done|].
  rewrite fmap_cons, not_elem_of_cons. intros [Hne Hl].
  rewrite filter_cons. case_decide; [by rewrite IH|congruence].
Qed.

Lemma set_participants_same mt : set_participants (participants mt) mt = mt.
Proof. by destruct mt. Qed.

Lemma invariant_init : invariant TeamsService_init.
Proof. split; intros m mt H; simpl in H; by rewrite lookup_empty in H. Qed.

Lemma invariant_delete m s :
  invariant s →
  invariant
    {| active_meetings := delete m (active_meetings s);
       participant_cache := delete m (participant_cache s);
       conversation_references := delete m (conversation_references s) |}.
Proof.
  intros [Hc Hp]. split; intros m' mt; simpl;
    (destruct (decide (m = m')) as [<-|Hne];
     [by rewrite lookup_delete_eq | rewrite !lookup_delete_ne by done]).
  - apply Hc.
  - apply Hp.
Qed.

Lemma invariant_join env m p w :
  invariant (service w) → invariant (service (exec (handle_meeting_join env m p) w)).
Proof.
  intros [Hc Hp].
  destruct (active_meetings (service w) !! m) as [mt|] eqn:HA.
  - destruct (Hc m mt HA) as [HC Hnd].
    destruct (decide (id p ∈ (list_to_set (participant_ids mt) : gset string)))
      as [Hin|Hnew].
    + pose proof (join_duplicate env m p w mt _ HA HC Hin) as Hf.
      apply finishes_exec in Hf as (-> & _). by split.
    + destruct (join_new_participant env m p w mt _ HA HC Hnew)
        as (t & Hf & _).
      apply finishes_exec in Hf as (-> & _).
      split; intros m' mt'; simpl;
        (destruct (decide (m = m')) as [<-|Hne];
         [rewrite !lookup_insert_eq; intros [= <-]
         | rewrite !lookup_insert_ne by done; try apply Hc; try apply Hp]).
      * unfold participant_ids, append_participant. simpl.
        rewrite fmap_app. change (id <$> [p]) with [id p].
        rewrite list_to_set_snoc_L. split; [done|].
        apply NoDup_app. split; [done|]. split; [|apply NoDup_singleton].
        intros x Hx ->%list_elem_of_singleton. apply Hnew.
        by apply elem_of_list_to_set.
      * unfold append_participant. simpl. by destruct (participants mt).
  - destruct (join_new_meeting env m p w HA) as (t & Hf & _).
    apply finishes_exec in Hf as (-> & _).
    split; intros m' mt'; simpl;
      (destruct (decide (m = m')) as [<-|Hne];
       [rewrite !lookup_insert_eq; intros [= <-]
       | rewrite !lookup_insert_ne by done; try apply Hc; try apply Hp]).
    + unfold participant_ids. simpl.
      rewrite (right_id_L ∅ (∪)). split; [done|]. apply NoDup_singleton.
    + done.
Qed.

Lemma invariant_leave m pid w :
  invariant (service w) → invariant (service (exec (handle_meeting_leave m pid) w)).
Proof.
  intros Hinv.
  destruct (active_meetings (service w) !! m) as [mt|] eqn:HA.
  - destruct (leave_known m pid w mt HA) as (t & Hf & _).
    apply finishes_exec in Hf as (-> & _).
    destruct (filter (λ p, id p ≠ pid) (participants mt)) as [|q rest] eqn:Hfl.
    + by apply invariant_delete.
    + destruct Hinv as [Hc Hp]. destruct (Hc m mt HA) as [HC Hnd].
      split; intros m' mt'; simpl;
        (destruct (decide (m = m')) as [<-|Hne];
         [rewrite lookup_insert_eq; intros [= <-]
         | rewrite lookup_insert_ne by done;
           rewrite ?lookup_alter_ne by done; try apply Hc; try apply Hp]).
      * rewrite lookup_alter_eq, HC.
        change (participant_ids (set_participants (q :: rest) mt))
          with (id <$> (q :: rest)).
        rewrite <- Hfl. simpl. split.
        -- f_equal. symmetry. apply ids_of_filter.
        -- by apply NoDup_ids_filter.
      * done.
  - pose proof (leave_unknown m pid w HA) as Hf.
    by apply finishes_exec in Hf as (-> & _).
Qed.

Lemma invariant_perform op w :
  invariant (service w) → invariant (service (exec (perform op) w)).
Proof.
  destruct op as [env m p | m pid | m | m ref]; simpl.
  - apply invariant_join.
  - apply invariant_leave.
  - intros Hinv. pose proof (cleanup_finishes m w) as Hf.
    apply finishes_exec in Hf as (-> & _). by apply invariant_delete.
  - intros Hinv. exact Hinv.
Qed.

Lemma run_snoc ops op w :
  run (ops ++ [op]) w = exec (perform op) (run ops w).
Proof. unfold run. by rewrite foldl_app. Qed.

Lemma invariant_reachable w : reachable w → invariant (service w).
Proof.
  intros [ops ->]. induction ops as [|op ops IH] using rev_ind.
  - apply invariant_init.
  - rewrite run_snoc. by apply invariant_perform.
Qed.

End invariants.

(** C2: in every state that a sequence of joins, leaves, cleanups and
    conversation-reference updates reaches from the empty service, each
    active meeting has an index entry, the entry is the set of the ids on
    the meeting's participant list, and the list names no id twice. *)
Theorem index_list_consistency (w : World) :
  reachable w →
  ∀ m mt, active_meetings (service w) !! m = Some mt →
    (∃ ids, participant_cache (service w) !! m = Some ids ∧
            ∀ x, x ∈ ids ↔ x ∈ participant_ids mt) ∧
    NoDup (participant_ids mt).
Proof.
  intros Hr m mt HA.
  destruct (invariant_reachable w Hr) as [Hc _].
  destruct (Hc m mt HA) as [HC Hnd]. split; [|done].
  eexists. split; [exact HC|]. intros x. apply elem_of_list_to_set.
Qed.

Lemma index_list_consistency_witness :
  reachable ana_in_m1 ∧
  (∃ ids, participant_cache (service ana_in_m1) !! "m1" = Some ids ∧
          ∀ x, x ∈ ids ↔ x ∈ ["p1"]) ∧
  NoDup ["p1"].
Proof.
  assert (reachable ana_in_m1) as Hr by (by exists [Join env_down "m1" ana]).
  split; [exact Hr|].
  refine (index_list_consistency ana_in_m1 Hr "m1"
            {| meeting_id := "m1"; organizer_id := "unknown"; subject := None;
               participants := [ana]; started_at := Some 10%Z |} _).
  vm_compute. reflexivity.
Defined.

(** ** Join and leave *)

Section join_leave.

Lemma filter_id_absent x (l : list ParticipantInfo) :
  x ∉ id <$> l → filter (λ q, id q = x) l = [].
Proof.
  induction l as [|q l IH]; [done|].
  rewrite fmap_cons, not_elem_of_cons. intros [Hne Hl].
  rewrite filter_cons. case_decide; [congruence|by apply IH].
Qed.

(** After a join the meeting is open. *)
Lemma join_opens env m p w :
  is_Some (active_meetings (service (exec (handle_meeting_join env m p) w)) !! m).
Proof.
  destruct (active_meetings (service w) !! m) as [mt|] eqn:HA.
  - destruct (participant_cache (service w) !! m) as [ids|] eqn:HC.
    + destruct (decide (id p ∈ ids)) as [Hin|Hnew].
      * pose proof (join_duplicate env m p w mt ids HA HC Hin) as Hf.
        apply finishes_exec in Hf as (-> & _). by rewrite HA.
      * destruct (join_new_participant env m p w mt ids HA HC Hnew)
          as (t & Hf & _).
        apply finishes_exec in Hf as (-> & _). simpl.
        by rewrite lookup_insert_eq.
    + pose proof (join_no_index env m p w mt HA HC) as Hf.
      apply finishes_exec in Hf as (-> & _). by rewrite HA.
  - destruct (join_new_meeting env m p w HA) as (t & Hf & _).
    apply finishes_exec in Hf as (-> & _). simpl.
    by rewrite lookup_insert_eq.
Qed.

(** After a leave from an open meeting the id is on neither side. *)
Lemma leave_removes m pid w :
  is_Some (active_meetings (service w) !! m) →
  ¬ listed (service (exec (handle_meeting_leave m pid) w)) m pid ∧
  ¬ indexed (service (exec (handle_meeting_leave m pid) w)) m pid.
Proof.
  intros [mt HA]. destruct (leave_known m pid w mt HA) as (t & Hf & _).
  apply finishes_exec in Hf as (-> & _).
  destruct (filter (λ p, id p ≠ pid) (participants mt)) as [|q rest] eqn:Hfl.
  - split; intros (x & Hx & _); simpl in Hx; by rewrite lookup_delete_eq in Hx.
  - split; intros (x & Hx & Hin); simpl in Hx.
    + rewrite lookup_insert_eq in Hx. injection Hx as <-.
      change (participant_ids (set_participants (q :: rest) mt))
        with (id <$> (q :: rest)) in Hin.
      rewrite <- Hfl in Hin.
      apply list_elem_of_fmap in Hin as (p & Hp & [Hne _]%list_elem_of_filter).
      by apply Hne.
    + rewrite lookup_alter_eq in Hx.
      destruct (participant_cache (service w) !! m) as [ids|];
        [|by simpl in Hx].
      simpl in Hx. assert (x = ids ∖ {[pid]}) as -> by congruence.
      apply elem_of_difference in Hin as [_ Hn].
      apply Hn. by apply elem_of_singleton.
Qed.

(** The leave that empties the list closes the meeting. *)
Lemma leave_last m pid w mt :
  active_meetings (service w) !! m = Some mt →
  filter (λ p, id p ≠ pid) (participants mt) = [] →
  service (exec (handle_meeting_leave m pid) w) =
    {| active_meetings := delete m (active_meetings (service w));
       participant_cache := delete m (participant_cache (service w));
       conversation_references :=
         delete m (conversation_references (service w)) |}.
Proof.
  intros HA Hfl. destruct (leave_known m pid w mt HA) as (t & Hf & _).
  apply finishes_exec in Hf as (-> & _). by rewrite Hfl.
Qed.

End join_leave.

(** C1: a second join with the id of a participant who has just joined
    changes nothing in the service and dispatches no greeting.  After both
    calls the meeting lists one participant with that id, the index holds
    the id, and one greeting has been dispatched in all. *)
Theorem handle_meeting_join_idempotent
    (env env' : Env) (m : string) (p p' : ParticipantInfo) (w : World) :
  consistent (service w) →
  ¬ indexed (service w) m (id p) →
  id p' = id p →
  let first := handle_meeting_join env m p in
  let second := handle_meeting_join env' m p' in
  let w1 := exec first w in
  let w2 := exec second w1 in
  service w2 = service w1 ∧
  dispatches (emitted second w1) = 0 ∧
  dispatches (emitted first w) + dispatches (emitted second w1) = 1 ∧
  ∃ mt ids,
    active_meetings (service w2) !! m = Some mt ∧
    length (filter (λ q, id q = id p) (participants mt)) = 1 ∧
    participant_cache (service w2) !! m = Some ids ∧
    id p ∈ ids.
Proof.
  intros Hc Hnot Hid first second w1 w2.
  assert (∃ mt ids,
            service w1 =
              {| active_meetings := <[m := mt]> (active_meetings (service w));
                 participant_cache := <[m := ids]> (participant_cache (service w));
                 conversation_references := conversation_references (service w) |} ∧
            dispatches (emitted first w) = 1 ∧
            length (filter (λ q, id q = id p) (participants mt)) = 1 ∧
            id p ∈ ids) as (mt1 & ids1 & Hs1 & Hd1 & Hcount & Hin).
  { subst w1 first.
    destruct (active_meetings (service w) !! m) as [mt|] eqn:HA.
    - destruct (Hc m mt HA) as [HC Hnd].
      assert (id p ∉ (list_to_set (participant_ids mt) : gset string)) as Hnew.
      { intros Hin. apply Hnot. eexists. split; [exact HC|exact Hin]. }
      destruct (join_new_participant env m p w mt _ HA HC Hnew)
        as (t & Hf & Hd & _).
      apply finishes_exec in Hf as (Hs & _ & -> & _).
      do 2 eexists. split; [exact Hs|]. split; [exact Hd|]. split.
      + unfold append_participant. simpl. rewrite filter_app, length_app.
        rewrite filter_id_absent.
        * rewrite filter_cons. by case_decide.
        * intros Hin. apply Hnew. by apply elem_of_list_to_set.
      + set_solver.
    - destruct (join_new_meeting env m p w HA) as (t & Hf & Hd & _).
      apply finishes_exec in Hf as (Hs & _ & -> & _).
      do 2 eexists. split; [exact Hs|]. split; [exact Hd|]. split.
      + simpl. rewrite filter_cons. by case_decide.
      + set_solver. }
  assert (finishes second w1 tt (service w1)
            [LogInfo "Participant joined meeting" [m; display_name p']]) as Hf2.
  { apply (join_duplicate env' m p' w1 mt1 ids1).
    - rewrite Hs1. simpl. apply lookup_insert_eq.
    - rewrite Hs1. simpl. apply lookup_insert_eq.
    - by rewrite Hid. }
  apply finishes_exec in Hf2 as (Hs2 & _ & He2 & _).
  fold w2 in Hs2. rewrite Hs2, He2, Hd1.
  split; [done|]. split; [done|]. split; [done|].
  exists mt1, ids1. rewrite Hs1. simpl. rewrite !lookup_insert_eq. done.
Qed.

Lemma handle_meeting_join_idempotent_witness :
  consistent (service World_init) ∧
  ¬ indexed (service World_init) "m1" "p1" ∧
  service (run [Join env_down "m1" ana; Join env_up "m1" ana] World_init) =
  service (run [Join env_down "m1" ana] World_init).
Proof.
  assert (consistent (service World_init)) as Hc.
  { intros m mt H. simpl in H. by rewrite lookup_empty in H. }
  assert (¬ indexed (service World_init) "m1" (id ana)) as Hn.
  { intros (ids & H & _). simpl in H. by rewrite lookup_empty in H. }
  split; [exact Hc|]. split; [exact Hn|].
  exact (proj1 (handle_meeting_join_idempotent env_down env_up "m1" ana ana
                  World_init Hc Hn eq_refl)).
Defined.

(** C3: a join followed by the leave of the same id leaves that id neither
    on the meeting's list nor in its index; and a leave that empties the
    list removes the meeting from the meetings, from the index and from
    the conversation references. *)
Theorem join_leave_symmetry_cleanup
    (env : Env) (m : string) (p : ParticipantInfo) (w : World) :
  (let w' := exec (handle_meeting_leave m (id p))
               (exec (handle_meeting_join env m p) w) in
   ¬ listed (service w') m (id p) ∧ ¬ indexed (service w') m (id p)) ∧
  (∀ pid mt,
     active_meetings (service w) !! m = Some mt →
     filter (λ q, id q ≠ pid) (participants mt) = [] →
     let w' := exec (handle_meeting_leave m pid) w in
     active_meetings (service w') !! m = None ∧
     participant_cache (service w') !! m = None ∧
     conversation_references (service w') !! m = None).
Proof.
  split.
  - apply leave_removes, join_opens.
  - intros pid mt HA Hfl w'. subst w'.
    rewrite (leave_last m pid w mt HA Hfl). simpl.
    by rewrite !lookup_delete_eq.
Qed.

Lemma join_leave_symmetry_cleanup_witness :
  active_meetings (service ana_in_m1) !! "m1" =
    Some {| meeting_id := "m1"; organizer_id := "unknown"; subject := None;
            participants := [ana]; started_at := Some 10%Z |} ∧
  active_meetings (service (exec (handle_meeting_leave "m1" "p1") ana_in_m1))
    !! "m1" = None.
Proof.
  assert (active_meetings (service ana_in_m1) !! "m1" =
          Some {| meeting_id := "m1"; organizer_id := "unknown"; subject := None;
                  participants := [ana]; started_at := Some 10%Z |}) as HA
    by (vm_compute; reflexivity).
  split; [exact HA|].
  exact (proj1 (proj2 (join_leave_symmetry_cleanup env_down "m1" ana ana_in_m1)
                  "p1" _ HA eq_refl)).
Defined.

(** C4: when the greeting step raises during a join, the join still
    returns, the failure is in the dispatcher's log, and the participant is
    on the meeting's list and in its index.  Neither the dispatcher nor
    the join handler ever raises, whatever their collaborators do. *)
Theorem greeting_failure_isolation
    (env : Env) (m : string) (p : ParticipantInfo) (w : World) :
  greeting_raises env p →
  consistent (service w) →
  ¬ indexed (service w) m (id p) →
  let w' := exec (handle_meeting_join env m p) w in
  returns (handle_meeting_join env m p) w ∧
  (∃ e, LogError "Failed to generate and play greeting" [m; display_name p] e
          ∈ emitted (handle_meeting_join env m p) w) ∧
  (∃ mt, active_meetings (service w') !! m = Some mt ∧ p ∈ participants mt) ∧
  indexed (service w') m (id p) ∧
  (∀ env0 m0 p0 w0,
     returns (_generate_and_play_greeting env0 m0 p0) w0 ∧
     service (exec (_generate_and_play_greeting env0 m0 p0) w0) = service w0) ∧
  (∀ env0 m0 p0 w0, returns (handle_meeting_join env0 m0 p0) w0).
Proof.
  intros Hr Hc Hnot w'. subst w'.
  assert (∃ mt ids t,
            finishes (handle_meeting_join env m p) w tt
              {| active_meetings := <[m := mt]> (active_meetings (service w));
                 participant_cache := <[m := ids]> (participant_cache (service w));
                 conversation_references := conversation_references (service w) |} t ∧
            (∃ e, LogError "Failed to generate and play greeting"
                    [m; display_name p] e ∈ t) ∧
            p ∈ participants mt ∧ id p ∈ ids)
    as (mt1 & ids1 & t & Hf & Hlog & Hp & Hin).
  { destruct (active_meetings (service w) !! m) as [mt|] eqn:HA.
    - destruct (Hc m mt HA) as [HC Hnd].
      assert (id p ∉ (list_to_set (participant_ids mt) : gset string)) as Hnew.
      { intros Hin. apply Hnot. eexists. split; [exact HC|exact Hin]. }
      destruct (join_new_participant env m p w mt _ HA HC Hnew)
        as (t & Hf & _ & Hlog).
      do 3 eexists. split; [exact Hf|]. split; [by apply Hlog|]. split.
      + simpl. rewrite elem_of_app. right. apply list_elem_of_here.
      + apply elem_of_union. right. by apply elem_of_singleton.
    - destruct (join_new_meeting env m p w HA) as (t & Hf & _ & Hlog).
      do 3 eexists. split; [exact Hf|]. split; [by apply Hlog|]. split.
      + simpl. apply list_elem_of_here.
      + by apply elem_of_singleton. }
  apply finishes_exec in Hf as (-> & _ & -> & Hret).
  split; [exact Hret|]. split; [exact Hlog|]. split; [|split; [|split]].
  - exists mt1. simpl. by rewrite lookup_insert_eq.
  - exists ids1. simpl. by rewrite lookup_insert_eq.
  - intros env0 m0 p0 w0.
    destruct (greeting_finishes env0 m0 p0 w0) as (t0 & Hf0 & _).
    apply finishes_exec in Hf0 as (Hs0 & _ & _ & Hret0). by split.
  - intros env0 m0 p0 w0. apply try_except_log_returns.
Qed.

Lemma greeting_failure_isolation_witness :
  greeting_raises env_down ana ∧
  consistent (service World_init) ∧
  ¬ indexed (service World_init) "m1" "p1" ∧
  returns (handle_meeting_join env_down "m1" ana) World_init ∧
  indexed (service (exec (handle_meeting_join env_down "m1" ana) World_init))
    "m1" "p1".
Proof.
  assert (greeting_raises env_down ana) as Hr.
  { intros w0. do 2 eexists. reflexivity. }
  assert (consistent (service World_init)) as Hc.
  { intros m mt H. simpl in H. by rewrite lookup_empty in H. }
  assert (¬ indexed (service World_init) "m1" (id ana)) as Hn.
  { intros (ids & H & _). simpl in H. by rewrite lookup_empty in H. }
  split; [exact Hr|]. split; [exact Hc|]. split; [exact Hn|].
  pose proof (greeting_failure_isolation env_down "m1" ana World_init Hr Hc Hn)
    as (Hret & _ & _ & Hidx & _).
  split; [exact Hret|exact Hidx].
Defined.

Section lifecycle.

(** The initialisation block on a meeting id that is not active. *)
Lemma initialize_meeting_unknown env m w :
  active_meetings (service w) !! m = None →
  service (exec (initialize_meeting env m) w) =
    {| active_meetings :=
         <[m := {| meeting_id := m; organizer_id := "unknown";
                   subject := None; participants := [];
                   started_at := Some (utcnow env) |}]>
           (active_meetings (service w));
       participant_cache := <[m := ∅]> (participant_cache (service w));
       conversation_references := conversation_references (service w) |}.
Proof.
  intros HA. unfold exec, initialize_meeting. munfold.
  destruct w as [[A C R] t0]. simpl in *.
  by rewrite (has_key_None _ _ HA).
Qed.

End lifecycle.

(** C5: once the leave of the last participant has run, [get_meeting_info]
    finds no meeting.  A join that follows creates the meeting anew: the
    record that the initialisation block makes has the clock reading of
    that join as its start, "unknown" as its organizer, nobody on its
    list, and an empty index entry; when the join is over the meeting
    holds the joiner alone, whatever the closed meeting held. *)
Theorem meeting_lifecycle
    (env : Env) (m pid : string) (p : ParticipantInfo) (w : World)
    (mt : MeetingInfo) :
  active_meetings (service w) !! m = Some mt →
  filter (λ q, id q ≠ pid) (participants mt) = [] →
  let w1 := exec (handle_meeting_leave m pid) w in
  let created := exec (initialize_meeting env m) w1 in
  let w2 := exec (handle_meeting_join env m p) w1 in
  fst (get_meeting_info m w1) = Returned None ∧
  active_meetings (service created) !! m =
    Some {| meeting_id := m; organizer_id := "unknown"; subject := None;
            participants := []; started_at := Some (utcnow env) |} ∧
  participant_cache (service created) !! m = Some ∅ ∧
  fst (get_meeting_info m w2) =
    Returned (Some {| meeting_id := m; organizer_id := "unknown";
                      subject := None; participants := [p];
                      started_at := Some (utcnow env) |}) ∧
  participant_cache (service w2) !! m = Some {[id p]} ∧
  (started_at mt ≠ Some (utcnow env) →
   ∀ mt', active_meetings (service w2) !! m = Some mt' →
          started_at mt' ≠ started_at mt).
Proof.
  intros HA Hfl w1 created w2.
  assert (active_meetings (service w1) !! m = None) as HA1.
  { subst w1. rewrite (leave_last m pid w mt HA Hfl). simpl.
    apply lookup_delete_eq. }
  assert (active_meetings (service w2) !! m =
          Some {| meeting_id := m; organizer_id := "unknown"; subject := None;
                  participants := [p]; started_at := Some (utcnow env) |} ∧
          participant_cache (service w2) !! m = Some {[id p]}) as [HA2 HC2].
  { subst w2. destruct (join_new_meeting env m p w1 HA1) as (t & Hf & _).
    apply finishes_exec in Hf as (-> & _). simpl.
    by rewrite !lookup_insert_eq. }
  split; [|split; [|split; [|split; [|split]]]].
  - unfold get_meeting_info. munfold. simpl. by rewrite HA1.
  - subst created. rewrite (initialize_meeting_unknown env m w1 HA1). simpl.
    apply lookup_insert_eq.
  - subst created. rewrite (initialize_meeting_unknown env m w1 HA1). simpl.
    apply lookup_insert_eq.
  - unfold get_meeting_info. munfold. simpl. by rewrite HA2.
  - exact HC2.
  - intros Hclock mt' Hmt'. rewrite HA2 in Hmt'. injection Hmt' as <-.
    simpl. congruence.
Qed.

Lemma meeting_lifecycle_witness :
  fst (get_meeting_info "m1" (exec (handle_meeting_leave "m1" "p1") ana_in_m1)) =
    Returned None ∧
  fst (get_meeting_info "m1"
         (run [Join env_down "m1" ana; Leave "m1" "p1"; Join env_up "m1" rui]
            World_init)) =
    Returned (Some {| meeting_id := "m1"; organizer_id := "unknown";
                      subject := None; participants := [rui];
                      started_at := Some 20%Z |}).
Proof.
  assert (active_meetings (service ana_in_m1) !! "m1" =
          Some {| meeting_id := "m1"; organizer_id := "unknown"; subject := None;
                  participants := [ana]; started_at := Some 10%Z |}) as HA
    by (vm_compute; reflexivity).
  pose proof (meeting_lifecycle env_up "m1" "p1" rui ana_in_m1 _ HA eq_refl)
    as (Hgone & _ & _ & Hback & _).
  split; [exact Hgone|exact Hback].
Defined.

(** C6: from the empty service, two participants with different ids join
    meeting "m1" and the first one leaves: "m1" is still active, its list
    is the second participant alone, and its index entry holds the second
    participant's id alone. *)
Theorem two_join_one_leaves (env1 env2 : Env) (p1 p2 : ParticipantInfo) :
  id p1 ≠ id p2 →
  let w := run [Join env1 "m1" p1; Join env2 "m1" p2; Leave "m1" (id p1)]
               World_init in
  (∃ mt, active_meetings (service w) !! "m1" = Some mt ∧
         participants mt = [p2]) ∧
  participant_cache (service w) !! "m1" = Some {[id p2]}.
Proof.
  intros Hne w. subst w. unfold run. simpl.
  destruct (join_new_meeting env1 "m1" p1 World_init) as (t1 & Hf1 & _);
    [apply lookup_empty|].
  apply finishes_exec in Hf1 as (Hs1 & _).
  set (w1 := exec (handle_meeting_join env1 "m1" p1) World_init) in *.
  destruct (join_new_participant env2 "m1" p2 w1
              {| meeting_id := "m1"; organizer_id := "unknown"; subject := None;
                 participants := [p1]; started_at := Some (utcnow env1) |}
              {[id p1]}) as (t2 & Hf2 & _).
  { rewrite Hs1. simpl. apply lookup_insert_eq. }
  { rewrite Hs1. simpl. apply lookup_insert_eq. }
  { rewrite elem_of_singleton. congruence. }
  apply finishes_exec in Hf2 as (Hs2 & _).
  set (w2 := exec (handle_meeting_join env2 "m1" p2) w1) in *.
  destruct (leave_known "m1" (id p1) w2
              (append_participant p2
                 {| meeting_id := "m1"; organizer_id := "unknown";
                    subject := None; participants := [p1];
                    started_at := Some (utcnow env1) |}))
    as (t3 & Hf3 & _).
  { rewrite Hs2. simpl. apply lookup_insert_eq. }
  apply finishes_exec in Hf3 as (Hs3 & _).
  rewrite Hs3. simpl.
  rewrite filter_cons_False by (intros H; by apply H).
  rewrite filter_cons_True by congruence.
  rewrite filter_nil. simpl. split.
  - eexists. split; [apply lookup_insert_eq|reflexivity].
  - rewrite lookup_alter_eq, Hs2. simpl. rewrite lookup_insert_eq. simpl.
    f_equal. apply set_eq. intros x.
    rewrite elem_of_difference, elem_of_union, !elem_of_singleton.
    split; [intros [[->| ->] H]; done | intros ->; split; [by right|congruence]].
Qed.

Lemma two_join_one_leaves_witness :
  id ana ≠ id rui ∧
  participant_cache
    (service (run [Join env_down "m1" ana; Join env_up "m1" rui; Leave "m1" "p1"]
                World_init)) !! "m1" = Some {["p2"]}.
Proof.
  assert (id ana ≠ id rui) as Hne by discriminate.
  split; [exact Hne|].
  exact (proj2 (two_join_one_leaves env_down env_up ana rui Hne)).
Defined.

(** C7: a leave for a meeting that is not active changes none of the three
    dictionaries.  In a reachable state, a leave for an active meeting by
    an id that is not on the meeting's list changes nothing either: the
    meeting stays, with its list and its index entry as they were. *)
Theorem leave_tolerance (m pid : string) (w : World) :
  (active_meetings (service w) !! m = None →
   service (exec (handle_meeting_leave m pid) w) = service w) ∧
  (reachable w →
   ∀ mt, active_meetings (service w) !! m = Some mt →
         pid ∉ participant_ids mt →
         let w' := exec (handle_meeting_leave m pid) w in
         service w' = service w ∧
         active_meetings (service w') !! m = Some mt ∧
         participant_cache (service w') !! m = participant_cache (service w) !! m).
Proof.
  split.
  - intros HA. pose proof (leave_unknown m pid w HA) as Hf.
    by apply finishes_exec in Hf as (-> & _).
  - intros Hr mt HA Habs w'.
    assert (service w' = service w) as Hs; [|by rewrite Hs].
    subst w'. destruct (invariant_reachable w Hr) as [Hc Hp].
    destruct (Hc m mt HA) as [HC _]. specialize (Hp m mt HA).
    destruct (leave_known m pid w mt HA) as (t & Hf & _).
    apply finishes_exec in Hf as (-> & _).
    rewrite (filter_absent pid (participants mt) Habs).
    destruct (participants mt) as [|q rest] eqn:Hps; [done|].
    rewrite <- Hps, set_participants_same, (insert_id _ _ _ HA).
    rewrite (alter_lookup_Some _ _ _ _ HC).
    assert ((list_to_set (participant_ids mt) : gset string) ∖ {[pid]} =
            list_to_set (participant_ids mt)) as ->.
    { apply set_eq. intros x.
      rewrite elem_of_difference, elem_of_singleton, elem_of_list_to_set.
      split; [by intros [? _]|]. intros Hx. split; [done|]. by intros ->. }
    rewrite (insert_id _ _ _ HC). by destruct (service w).
Qed.

Lemma leave_tolerance_witness :
  active_meetings (service World_init) !! "m9" = None ∧
  service (exec (handle_meeting_leave "m9" "p1") World_init) = service World_init ∧
  reachable ana_in_m1 ∧
("p2" ∉ ["p1"]) ∧
  service (exec (handle_meeting_leave "m1" "p2") ana_in_m1) = service ana_in_m1.
Proof.
  assert (active_meetings (service World_init) !! "m9" = None) as HA0
    by apply lookup_empty.
  assert (reachable ana_in_m1) as Hr by (by exists [Join env_down "m1" ana]).
  assert (active_meetings (service ana_in_m1) !! "m1" =
          Some {| meeting_id := "m1"; organizer_id := "unknown"; subject := None;
                  participants := [ana]; started_at := Some 10%Z |}) as HA
    by (vm_compute; reflexivity).
  assert ("p2" ∉ ["p1"]) as Habs.
  { rewrite not_elem_of_cons. split; [discriminate|apply not_elem_of_nil]. }
  split; [exact HA0|].
  split; [exact (proj1 (leave_tolerance "m9" "p1" World_init) HA0)|].
  split; [exact Hr|]. split; [exact Habs|].
  exact (proj1 (proj2 (leave_tolerance "m1" "p2" ana_in_m1) Hr _ HA Habs)).
Defined.

(** ** The join event of the bot *)

Section bot.

Local Arguments handle_meeting_join : simpl never.

Lemma bot_identifier_subsumed s :
  (PyStr.contains "teamsgreetingbot" s = true → PyStr.contains "bot" s = true) ∧
  (PyStr.contains "greeting bot" s = true → PyStr.contains "bot" s = true) ∧
  (PyStr.contains "@bot" s = true → PyStr.contains "bot" s = true).
Proof.
  split; [|split]; intros H.
  - do 13 apply contains_drop_head in H. exact H.
  - do 9 apply contains_drop_head in H. exact H.
  - by apply contains_drop_head in H.
Qed.

(** The four identifiers come down to the one word "bot". *)
Lemma is_bot_participant_bot p :
  _is_bot_participant p =
  PyStr.contains "bot" (PyStr.lower (display_name p)).
Proof.
  unfold _is_bot_participant, bot_identifiers.
  set (s := PyStr.lower (display_name p)).
  destruct (bot_identifier_subsumed s) as (H1 & H2 & H3).
  cbn [existsb].
  destruct (PyStr.contains "bot" s) eqn:Hbot.
  - by rewrite !orb_true_r.
  - destruct (PyStr.contains "teamsgreetingbot" s); [by discriminate H1|].
    destruct (PyStr.contains "greeting bot" s); [by discriminate H2|].
    destruct (PyStr.contains "@bot" s); [by discriminate H3|].
    reflexivity.
Qed.

(** What one join can do: it returns, dispatches at most one greeting,
    and adds no other member than its participant to its meeting. *)
Lemma join_effect env m p w :
  ∃ s t, finishes (handle_meeting_join env m p) w tt s t ∧
         dispatches t ≤ 1 ∧
         (∀ m' x, indexed s m' x →
                  indexed (service w) m' x ∨ (m' = m ∧ x = id p)) ∧
         (∀ m' x, listed s m' x →
                  listed (service w) m' x ∨ (m' = m ∧ x = id p)).
Proof.
  destruct (active_meetings (service w) !! m) as [mt|] eqn:HA.
  - destruct (participant_cache (service w) !! m) as [ids|] eqn:HC.
    + destruct (decide (id p ∈ ids)) as [Hin|Hnew].
      * do 2 eexists. split; [exact (join_duplicate env m p w mt ids HA HC Hin)|].
        split; [rewrite !dispatches_cons, dispatches_nil; simpl; lia|].
        split; intros; by left.
      * destruct (join_new_participant env m p w mt ids HA HC Hnew)
          as (t & Hf & Hd & _).
        do 2 eexists. split; [exact Hf|]. split; [lia|].
        split; intros m' x (v & Hv & Hx); simpl in Hv;
          (destruct (decide (m = m')) as [<-|Hne];
           [rewrite lookup_insert_eq in Hv; injection Hv as <-
           | rewrite lookup_insert_ne in Hv by done; left; by exists v]).
        -- apply elem_of_union in Hx as [Hx|Hx%elem_of_singleton].
           ++ left. by exists ids.
           ++ by right.
        -- unfold participant_ids, append_participant in Hx. simpl in Hx.
           rewrite fmap_app in Hx.
           apply elem_of_app in Hx as [Hx|Hx%list_elem_of_singleton].
           ++ left. by exists mt.
           ++ by right.
    + do 2 eexists. split; [exact (join_no_index env m p w mt HA HC)|].
      split; [rewrite !dispatches_cons, dispatches_nil; simpl; lia|].
        split; intros; by left.
  - destruct (join_new_meeting env m p w HA) as (t & Hf & Hd & _).
    do 2 eexists. split; [exact Hf|]. split; [lia|].
    split; intros m' x (v & Hv & Hx); simpl in Hv;
      (destruct (decide (m = m')) as [<-|Hne];
       [rewrite lookup_insert_eq in Hv; injection Hv as <-
       | rewrite lookup_insert_ne in Hv by done; left; by exists v]).
    + apply elem_of_singleton in Hx. by right.
    + apply list_elem_of_singleton in Hx. by right.
Qed.

(** The loop over the participants of a join event: only those whose
    name is without "bot" can become members or be greeted. *)
Lemma join_each_effect env m joined :
  ∀ i w,
  ∃ s t, finishes (join_each env i m joined) w tt s t ∧
         dispatches t ≤ length (filter (λ tp, bot_named tp = false) joined) ∧
         (∀ m' x, indexed s m' x →
            indexed (service w) m' x ∨
            ∃ tp, tp ∈ joined ∧ bot_named tp = false ∧ joined_id tp = x) ∧
         (∀ m' x, listed s m' x →
            listed (service w) m' x ∨
            ∃ tp, tp ∈ joined ∧ bot_named tp = false ∧ joined_id tp = x).
Proof.
  induction joined as [|tp joined IH]; intros i w.
  - exists (service w), []. unfold finishes. simpl.
    split; [by rewrite app_nil_r; destruct w|].
    split; [rewrite dispatches_nil; lia|]. split; intros; by left.
  - cbn [join_each]. rewrite is_bot_participant_bot.
    change (PyStr.contains "bot"
              (PyStr.lower (display_name (_convert_teams_participant (env i) tp))))
      with (bot_named tp).
    rewrite filter_cons.
    destruct (bot_named tp) eqn:Hbot.
    + destruct (IH (S i) w) as (s & t & Hf & Hd & Hidx & Hlst).
      exists s, t. split; [exact Hf|].
      split; [by case_decide|].
      split; intros m' x Hx;
        [destruct (Hidx m' x Hx) as [?|(tp' & ? & ? & ?)]
        |destruct (Hlst m' x Hx) as [?|(tp' & ? & ? & ?)]];
        try (by left); right; exists tp'; (split; [by right|done]).
    + destruct (join_effect (env i) m (_convert_teams_participant (env i) tp) w)
        as (s1 & t1 & Hf1 & Hd1 & Hidx1 & Hlst1).
      destruct (IH (S i) {| service := s1; trace := trace w ++ t1 |})
        as (s & t & Hf & Hd & Hidx & Hlst).
      exists s, (t1 ++ t). split.
      { unfold finishes in *. munfold. rewrite Hf1, Hf. simpl.
        by rewrite app_assoc. }
      split.
      { rewrite dispatches_app. case_decide; [|done]. simpl. lia. }
      split; intros m' x Hx;
        [destruct (Hidx m' x Hx) as [Hx1|(tp' & ? & ? & ?)];
         [destruct (Hidx1 m' x Hx1) as [?|[_ ->]]|]
        |destruct (Hlst m' x Hx) as [Hx1|(tp' & ? & ? & ?)];
         [destruct (Hlst1 m' x Hx1) as [?|[_ ->]]|]];
        try (by left); right;
        try (exists tp; split; [by left|done]);
        exists tp'; (split; [by right|done]).
Qed.

Lemma join_each_bots env m joined :
  (∀ tp, tp ∈ joined → bot_named tp = true) →
  ∀ i w, join_each env i m joined w = (Returned tt, w).
Proof.
  induction joined as [|tp joined IH]; intros Hall i w; [done|].
  cbn [join_each]. rewrite is_bot_participant_bot.
  change (PyStr.contains "bot"
            (PyStr.lower (display_name (_convert_teams_participant (env i) tp))))
    with (bot_named tp).
  rewrite (Hall tp) by apply list_elem_of_here.
  apply IH. intros tp' Hin. apply Hall. by right.
Qed.

End bot.

(** C10: the bot check answers whether the display name, in small letters,
    contains "bot", which the other three identifiers contain.  The join
    handler returns, passes no participant with such a name to the
    tracker, so that an id that arrives only under such names becomes a
    member of no meeting, and dispatches at most as many greetings as the
    event has participants with other names. *)
Theorem bot_named_participants_skipped
    (env : nat → Env) (joined : list Teams.MeetingParticipant)
    (info : Teams.MeetingInfo) (w : World) :
  (∀ p, _is_bot_participant p =
        PyStr.contains "bot" (PyStr.lower (display_name p))) ∧
  (∀ identifier s, identifier ∈ bot_identifiers →
     PyStr.contains identifier s = true → PyStr.contains "bot" s = true) ∧
  let handler := on_teams_meeting_participants_join env joined info in
  let w' := exec handler w in
  returns handler w ∧
  dispatches (emitted handler w) ≤
    length (filter (λ tp, bot_named tp = false) joined) ∧
  (∀ x, (∀ tp, tp ∈ joined → joined_id tp = x → bot_named tp = true) →
     ∀ m, (indexed (service w') m x → indexed (service w) m x) ∧
          (listed (service w') m x → listed (service w) m x)) ∧
  ((∀ tp, tp ∈ joined → bot_named tp = true) →
   service w' = service w ∧ dispatches (emitted handler w) = 0).
Proof.
  split; [apply is_bot_participant_bot|]. split.
  { intros identifier s Hid H. destruct (bot_identifier_subsumed s) as (H1 & H2 & H3).
    unfold bot_identifiers in Hid. rewrite !elem_of_cons in Hid.
    destruct Hid as [->|[->|[->|[->|Hid]]]]; auto.
    by apply elem_of_nil in Hid. }
  intros handler w'.
  set (m := default "unknown" (Teams.meeting_info_id info)).
  destruct (join_each_effect env m joined 0
              {| service := service w;
                 trace := trace w ++ [LogInfo "Teams meeting participants joined" [m]] |})
    as (s & t & Hf & Hd & Hidx & Hlst).
  assert (finishes handler w tt s
            (LogInfo "Teams meeting participants joined" [m] :: t)) as Hh.
  { unfold finishes in *. unfold handler, on_teams_meeting_participants_join.
    munfold. simpl. fold m. rewrite Hf. simpl. by rewrite <- app_assoc. }
  apply finishes_exec in Hh as (Hs & _ & He & Hret).
  fold w' in Hs. rewrite Hs, He. simpl in Hidx, Hlst.
  split; [exact Hret|]. split; [by rewrite dispatches_cons|]. split.
  - intros x Hbots m'. split; intros Hx;
      [destruct (Hidx m' x Hx) as [?|(tp & Hin & Hb & Hid)]
      |destruct (Hlst m' x Hx) as [?|(tp & Hin & Hb & Hid)]]; try done;
      rewrite (Hbots tp Hin Hid) in Hb; discriminate Hb.
  - intros Hall.
    assert (filter (λ tp, bot_named tp = false) joined = []) as Hnone.
    { clear -Hall. induction joined as [|tp joined IH]; [done|].
      rewrite filter_cons. rewrite (Hall tp) by apply list_elem_of_here.
      case_decide; [done|]. apply IH. intros tp' Hin. apply Hall. by right. }
    rewrite Hnone in Hd. simpl in Hd. split.
    + unfold finishes in Hf. rewrite (join_each_bots env m joined Hall) in Hf.
      by injection Hf as <- _.
    + rewrite dispatches_cons. simpl. lia.
Qed.

Lemma bot_named_participants_skipped_witness :
  (∀ tp, tp ∈ [abbott] → bot_named tp = true) ∧
  service (exec (on_teams_meeting_participants_join (λ _, env_up) [abbott]
                   {| Teams.meeting_info_id := Some "m1" |}) ana_in_m1) =
  service ana_in_m1.
Proof.
  assert (∀ tp, tp ∈ [abbott] → bot_named tp = true) as Hall.
  { intros tp Hin. apply list_elem_of_singleton in Hin. by rewrite Hin. }
  split; [exact Hall|].
  pose proof (bot_named_participants_skipped (λ _, env_up) [abbott]
                {| Teams.meeting_info_id := Some "m1" |} ana_in_m1)
    as (_ & _ & _ & _ & _ & Hskip).
  exact (proj1 (Hskip Hall)).
Defined.

(** * Further properties of the code *)

(** ** The tracker *)

Section tracker_more.

(** The four ways a join can go. *)
Lemma join_cases env m p w :
  (active_meetings (service w) !! m = None ∧
   ∃ t, finishes (handle_meeting_join env m p) w tt
          {| active_meetings :=
               <[m := {| meeting_id := m; organizer_id := "unknown";
                         subject := None; participants := [p];
                         started_at := Some (utcnow env) |}]>
                 (active_meetings (service w));
             participant_cache :=
               <[m := {[id p]}]> (participant_cache (service w));
             conversation_references := conversation_references (service w) |} t
        ∧ dispatches t = 1) ∨
  (∃ mt ids,
     active_meetings (service w) !! m = Some mt ∧
     participant_cache (service w) !! m = Some ids ∧ (id p ∉ ids) ∧
     ∃ t, finishes (handle_meeting_join env m p) w tt
            {| active_meetings :=
                 <[m := append_participant p mt]> (active_meetings (service w));
               participant_cache :=
                 <[m := ids ∪ {[id p]}]> (participant_cache (service w));
               conversation_references := conversation_references (service w) |} t
          ∧ dispatches t = 1) ∨
  (∃ mt t,
     active_meetings (service w) !! m = Some mt ∧
     (participant_cache (service w) !! m = None ∨
      ∃ ids, participant_cache (service w) !! m = Some ids ∧ id p ∈ ids) ∧
     finishes (handle_meeting_join env m p) w tt (service w) t ∧
     dispatches t = 0).
Proof.
  destruct (active_meetings (service w) !! m) as [mt|] eqn:HA.
  - destruct (participant_cache (service w) !! m) as [ids|] eqn:HC.
    + destruct (decide (id p ∈ ids)) as [Hin|Hnew].
      * right. right. do 2 eexists. split; [done|]. split; [right; eauto|].
        split; [exact (join_duplicate env m p w mt ids HA HC Hin)|done].
      * right. left. exists mt, ids.
        destruct (join_new_participant env m p w mt ids HA HC Hnew)
          as (t & Hf & Hd & _). eauto 10.
    + right. right. do 2 eexists. split; [done|]. split; [by left|].
      split; [exact (join_no_index env m p w mt HA HC)|done].
  - left. split; [done|].
    destruct (join_new_meeting env m p w HA) as (t & Hf & Hd & _). eauto.
Qed.

(** The ways a leave can go, with the service it leaves. *)
Lemma leave_cases m pid w :
  (active_meetings (service w) !! m = None ∧
   service (exec (handle_meeting_leave m pid) w) = service w) ∨
  (∃ mt, active_meetings (service w) !! m = Some mt ∧
     filter (λ p, id p ≠ pid) (participants mt) = [] ∧
     service (exec (handle_meeting_leave m pid) w) =
       {| active_meetings := delete m (active_meetings (service w));
          participant_cache := delete m (participant_cache (service w));
          conversation_references :=
            delete m (conversation_references (service w)) |}) ∨
  (∃ mt, active_meetings (service w) !! m = Some mt ∧
     filter (λ p, id p ≠ pid) (participants mt) ≠ [] ∧
     service (exec (handle_meeting_leave m pid) w) =
       {| active_meetings :=
            <[m := set_participants
                     (filter (λ p, id p ≠ pid) (participants mt)) mt]>
              (active_meetings (service w));
          participant_cache :=
            alter (λ ids, ids ∖ {[pid]}) m (participant_cache (service w));
          conversation_references := conversation_references (service w) |}).
Proof.
  destruct (active_meetings (service w) !! m) as [mt|] eqn:HA.
  - right. destruct (leave_known m pid w mt HA) as (t & Hf & _).
    apply finishes_exec in Hf as (Hs & _).
    destruct (filter (λ p, id p ≠ pid) (participants mt)) as [|q rest] eqn:Hfl.
    + left. exists mt. rewrite Hfl. by rewrite Hs.
    + right. exists mt. rewrite Hfl. rewrite Hs. done.
  - left. split; [done|]. pose proof (leave_unknown m pid w HA) as Hf.
    by apply finishes_exec in Hf as (-> & _).
Qed.

Lemma leave_finishes m pid w :
  ∃ s t, finishes (handle_meeting_leave m pid) w tt s t ∧ dispatches t = 0.
Proof.
  destruct (active_meetings (service w) !! m) as [mt|] eqn:HA.
  - destruct (leave_known m pid w mt HA) as (t & Hf & Hd). eauto.
  - do 2 eexists. split; [exact (leave_unknown m pid w HA)|done].
Qed.

Lemma cleanup_service m w :
  service (exec (_cleanup_meeting m) w) =
    {| active_meetings := delete m (active_meetings (service w));
       participant_cache := delete m (participant_cache (service w));
       conversation_references := delete m (conversation_references (service w)) |}.
Proof.
  pose proof (cleanup_finishes m w) as Hf.
  by apply finishes_exec in Hf as (-> & _).
Qed.

Lemma reachable_invariant (P : TeamsService → Prop) :
  P TeamsService_init →
  (∀ op w, P (service w) → P (service (exec (perform op) w))) →
  ∀ w, reachable w → P (service w).
Proof.
  intros Hinit Hstep w [ops ->]. induction ops as [|op ops IH] using rev_ind.
  - exact Hinit.
  - rewrite run_snoc. by apply Hstep.
Qed.

End tracker_more.

(** X1: an operation on one meeting leaves the entries of every other
    meeting as they were, in the meetings, in the index and in the
    conversation references. *)
Theorem other_meetings_untouched (op : operation) (m' : string) (w : World) :
  operation_meeting op ≠ m' →
  let s' := service (exec (perform op) w) in
  active_meetings s' !! m' = active_meetings (service w) !! m' ∧
  participant_cache s' !! m' = participant_cache (service w) !! m' ∧
  conversation_references s' !! m' = conversation_references (service w) !! m'.
Proof.
  intros Hne s'. subst s'. destruct op as [env m p | m pid | m | m ref];
    simpl in Hne; simpl perform.
  - destruct (join_cases env m p w)
      as [[_ (t & Hf & _)] | [(mt & ids & _ & _ & _ & t & Hf & _)
                             | (mt & t & _ & _ & Hf & _)]];
      apply finishes_exec in Hf as (-> & _); simpl;
      by rewrite ?lookup_insert_ne by done.
  - destruct (leave_cases m pid w)
      as [[_ ->] | [(mt & _ & _ & ->) | (mt & _ & _ & ->)]]; simpl;
      by rewrite ?lookup_delete_ne, ?lookup_insert_ne, ?lookup_alter_ne by done.
  - rewrite cleanup_service. simpl. by rewrite !lookup_delete_ne by done.
  - unfold exec, add_conversation_reference, modify_service. simpl.
    by rewrite lookup_insert_ne by done.
Qed.

Lemma other_meetings_untouched_witness :
  active_meetings (service (exec (handle_meeting_leave "m2" "p1") ana_in_m1))
    !! "m1" = active_meetings (service ana_in_m1) !! "m1".
Proof.
  assert (operation_meeting (Leave "m2" "p1") ≠ "m1") as Hne by discriminate.
  exact (proj1 (other_meetings_untouched (Leave "m2" "p1") "m1" ana_in_m1 Hne)).
Defined.

(** X2: in every reachable state the record of an active meeting is filed
    under its own id, has "unknown" as organizer and no subject, and has a
    start time: the tracker never learns an organizer or a subject. *)
Theorem reachable_record_shape (w : World) :
  reachable w → record_shape (service w).
Proof.
  apply reachable_invariant.
  - intros m mt H. simpl in H. by rewrite lookup_empty in H.
  - intros op w0 Hshape. destruct op as [env m p | m pid | m | m ref];
      simpl perform.
    + destruct (join_cases env m p w0)
        as [[_ (t & Hf & _)] | [(mt & ids & HA & _ & _ & t & Hf & _)
                               | (mt & t & _ & _ & Hf & _)]];
        apply finishes_exec in Hf as (-> & _); [| |done];
        intros m' mt'; simpl;
        (destruct (decide (m = m')) as [<-|Hne];
         [rewrite lookup_insert_eq; intros [= <-]
         | rewrite lookup_insert_ne by done; apply Hshape]).
      * simpl. eauto.
      * destruct (Hshape m mt HA) as (? & ? & ? & ?). by destruct mt.
    + destruct (leave_cases m pid w0)
        as [[_ ->] | [(mt & _ & _ & ->) | (mt & HA & _ & ->)]]; [done| |];
        intros m' mt'; simpl;
        (destruct (decide (m = m')) as [<-|Hne];
         [| rewrite ?lookup_delete_ne, ?lookup_insert_ne by done; apply Hshape]).
      * by rewrite lookup_delete_eq.
      * rewrite lookup_insert_eq. intros [= <-].
        destruct (Hshape m mt HA) as (? & ? & ? & ?). by destruct mt.
    + rewrite cleanup_service. intros m' mt'. simpl.
      destruct (decide (m = m')) as [<-|Hne];
        [by rewrite lookup_delete_eq
        | rewrite lookup_delete_ne by done; apply Hshape].
    + exact Hshape.
Qed.

Lemma reachable_record_shape_witness :
  reachable ana_in_m1 ∧ record_shape (service ana_in_m1).
Proof.
  assert (reachable ana_in_m1) as Hr by (by exists [Join env_down "m1" ana]).
  split; [exact Hr|]. exact (reachable_record_shape ana_in_m1 Hr).
Defined.

(** X3: in every reachable state the index has an entry exactly for the
    active meetings, and no active meeting is without participants: no
    index entry outlives its meeting and no empty meeting stays listed. *)
Theorem reachable_no_stale_entries (w : World) :
  reachable w → same_keys (service w) ∧ populated (service w).
Proof.
  intros Hr. split; [|by apply invariant_reachable].
  revert w Hr. apply reachable_invariant.
  - intros m. simpl. by rewrite !lookup_empty.
  - intros op w0 Hkeys. destruct op as [env m p | m pid | m | m ref];
      simpl perform.
    + destruct (join_cases env m p w0)
        as [[_ (t & Hf & _)] | [(mt & ids & HA & _ & _ & t & Hf & _)
                               | (mt & t & _ & _ & Hf & _)]];
        apply finishes_exec in Hf as (-> & _); [| |done];
        intros m'; simpl;
        (destruct (decide (m = m')) as [<-|Hne];
         [rewrite !lookup_insert_eq; by split
         | rewrite !lookup_insert_ne by done; apply Hkeys]).
    + destruct (leave_cases m pid w0)
        as [[_ ->] | [(mt & _ & _ & ->) | (mt & HA & _ & ->)]]; [done| |];
        intros m'; simpl;
        (destruct (decide (m = m')) as [<-|Hne];
         [| rewrite ?lookup_delete_ne, ?lookup_insert_ne, ?lookup_alter_ne
              by done; apply Hkeys]).
      * rewrite !lookup_delete_eq. by split; intros [? ?].
      * rewrite lookup_insert_eq, lookup_alter_eq.
        destruct (proj2 (Hkeys m)) as [ids ->]; [by exists mt|]. by split.
    + rewrite cleanup_service. intros m'. simpl.
      destruct (decide (m = m')) as [<-|Hne].
      * rewrite !lookup_delete_eq. by split; intros [? ?].
      * rewrite !lookup_delete_ne by done. apply Hkeys.
    + exact Hkeys.
Qed.

Lemma reachable_no_stale_entries_witness :
  reachable ana_in_m1 ∧
  same_keys (service ana_in_m1) ∧ populated (service ana_in_m1).
Proof.
  assert (reachable ana_in_m1) as Hr by (by exists [Join env_down "m1" ana]).
  split; [exact Hr|]. exact (reachable_no_stale_entries ana_in_m1 Hr).
Defined.

(** X4: a join into a meeting that is already active keeps the meeting's
    record: same id, organizer, subject and start time, and the same
    participants in the same order, with the joiner at most added at the
    end.  This holds in every state and whatever the greeting does. *)
Theorem join_keeps_open_meeting
    (env : Env) (m : string) (p : ParticipantInfo) (w : World) (mt : MeetingInfo) :
  active_meetings (service w) !! m = Some mt →
  ∃ mt', active_meetings (service (exec (handle_meeting_join env m p) w)) !! m
           = Some mt' ∧
         meeting_id mt' = meeting_id mt ∧ organizer_id mt' = organizer_id mt ∧
         subject mt' = subject mt ∧ started_at mt' = started_at mt ∧
         (participants mt' = participants mt ∨
          participants mt' = participants mt ++ [p]).
Proof.
  intros HA.
  destruct (join_cases env m p w)
    as [[HA' _] | [(mt0 & ids & HA0 & _ & _ & t & Hf & _)
                  | (mt0 & t & _ & _ & Hf & _)]].
  - congruence.
  - apply finishes_exec in Hf as (-> & _). simpl.
    rewrite lookup_insert_eq. eexists. split; [done|].
    assert (mt0 = mt) as -> by congruence. simpl. eauto 10.
  - apply finishes_exec in Hf as (-> & _). exists mt. eauto 10.
Qed.

Lemma join_keeps_open_meeting_witness :
  ∃ mt', active_meetings
           (service (exec (handle_meeting_join env_up "m1" rui) ana_in_m1)) !! "m1"
           = Some mt' ∧ started_at mt' = Some 10%Z.
Proof.
  assert (active_meetings (service ana_in_m1) !! "m1" =
          Some {| meeting_id := "m1"; organizer_id := "unknown"; subject := None;
                  participants := [ana]; started_at := Some 10%Z |}) as HA
    by (vm_compute; reflexivity).
  destruct (join_keeps_open_meeting env_up "m1" rui ana_in_m1 _ HA)
    as (mt' & H & _ & _ & _ & Hstart & _).
  exists mt'. split; [exact H|exact Hstart].
Defined.

Section leave_more.

Lemma ids_filter_other pid x (l : list ParticipantInfo) :
  x ≠ pid → x ∈ id <$> filter (λ p, id p ≠ pid) l ↔ x ∈ id <$> l.
Proof.
  intros Hne. rewrite !list_elem_of_fmap. split.
  - intros (p & -> & [_ Hin]%list_elem_of_filter). eauto.
  - intros (p & -> & Hin). exists p. split; [done|].
    by apply list_elem_of_filter.
Qed.

Lemma filter_nil_ids pid x (l : list ParticipantInfo) :
  filter (λ p, id p ≠ pid) l = [] → x ∈ id <$> l → x = pid.
Proof.
  intros Hfl (p & -> & Hin)%list_elem_of_fmap.
  destruct (decide (id p = pid)) as [|Hne]; [done|].
  assert (p ∈ filter (λ p, id p ≠ pid) l) as Hp by (by apply list_elem_of_filter).
  rewrite Hfl in Hp. by apply elem_of_nil in Hp.
Qed.

Lemma filter_leavers_twice pid (l : list ParticipantInfo) :
  filter (λ p, id p ≠ pid) (filter (λ p, id p ≠ pid) l) =
  filter (λ p, id p ≠ pid) l.
Proof. by apply list_filter_filter_r. Qed.

End leave_more.

(** X5: a leave removes nobody but the one who leaves.  Every other id is
    on a meeting's list after the leave exactly when it was before, and,
    when index and lists agreed before, in the index exactly when it was
    before. *)
Theorem leave_removes_only_leaver (m pid x m' : string) (w : World) :
  x ≠ pid →
  let s' := service (exec (handle_meeting_leave m pid) w) in
  (listed s' m' x ↔ listed (service w) m' x) ∧
  (consistent (service w) → indexed s' m' x ↔ indexed (service w) m' x).
Proof.
  intros Hne s'. subst s'.
  destruct (leave_cases m pid w)
    as [[_ ->] | [(mt & HA & Hfl & ->) | (mt & HA & Hfl & ->)]]; [done| |];
    unfold listed, indexed; simpl;
    (destruct (decide (m = m')) as [<-|Hm];
     [| rewrite ?lookup_delete_ne, ?lookup_insert_ne, ?lookup_alter_ne by done;
        done]).
  - rewrite !lookup_delete_eq. split; [|intros Hc]; split.
    + by intros (? & ? & _).
    + intros (mt0 & H0 & Hin). assert (mt0 = mt) as -> by congruence.
      destruct Hne. by apply (filter_nil_ids pid x (participants mt)).
    + by intros (? & ? & _).
    + intros (ids & HC & Hin). destruct (Hc m mt HA) as [HC' _].
      assert (ids = list_to_set (participant_ids mt)) as -> by congruence.
      apply elem_of_list_to_set in Hin.
      destruct Hne. by apply (filter_nil_ids pid x (participants mt)).
  - rewrite lookup_insert_eq, lookup_alter_eq. split; [|intros _]; split.
    + intros (mt0 & [= <-] & Hin). exists mt. split; [done|].
      by apply (ids_filter_other pid x (participants mt)).
    + intros (mt0 & H0 & Hin). assert (mt0 = mt) as -> by congruence.
      eexists. split; [done|].
      by apply (ids_filter_other pid x (participants mt)).
    + destruct (participant_cache (service w) !! m) as [ids|]; simpl;
        [|by intros (? & ? & _)].
      intros (ids' & [= <-] & [Hin _]%elem_of_difference). eauto.
    + intros (ids & -> & Hin). simpl. eexists. split; [done|].
      apply elem_of_difference. split; [done|]. by rewrite elem_of_singleton.
Qed.

Lemma leave_removes_only_leaver_witness :
  "p1" ≠ "p2" ∧
  (listed (service (exec (handle_meeting_leave "m1" "p2") ana_in_m1)) "m1" "p1" ↔
   listed (service ana_in_m1) "m1" "p1").
Proof.
  assert ("p1" ≠ "p2") as Hne by discriminate.
  split; [exact Hne|].
  exact (proj1 (leave_removes_only_leaver "m1" "p2" "p1" "m1" ana_in_m1 Hne)).
Defined.

(** X6: a leave is idempotent: repeating it changes nothing more in the
    service, in any state. *)
Theorem leave_twice_is_leave_once (m pid : string) (w : World) :
  service (exec (handle_meeting_leave m pid)
             (exec (handle_meeting_leave m pid) w)) =
  service (exec (handle_meeting_leave m pid) w).
Proof.
  set (w1 := exec (handle_meeting_leave m pid) w).
  destruct (leave_cases m pid w)
    as [[HA Hs] | [(mt & HA & Hfl & Hs) | (mt & HA & Hfl & Hs)]];
    fold w1 in Hs.
  - destruct (leave_cases m pid w1)
      as [[_ ->] | [(mt1 & HA1 & _) | (mt1 & HA1 & _)]]; [done| |];
      rewrite Hs in HA1; congruence.
  - destruct (leave_cases m pid w1)
      as [[_ ->] | [(mt1 & HA1 & _) | (mt1 & HA1 & _)]]; [done| |];
      rewrite Hs in HA1; simpl in HA1; by rewrite lookup_delete_eq in HA1.
  - assert (active_meetings (service w1) !! m =
            Some (set_participants
                    (filter (λ p, id p ≠ pid) (participants mt)) mt)) as HA1
      by (rewrite Hs; simpl; apply lookup_insert_eq).
    destruct (leave_cases m pid w1)
      as [[_ ->] | [(mt1 & HA1' & Hfl1 & _) | (mt1 & HA1' & _ & Hs2)]]; [done| |].
    + assert (mt1 = set_participants
                      (filter (λ p, id p ≠ pid) (participants mt)) mt)
        as -> by congruence.
      simpl in Hfl1. rewrite filter_leavers_twice in Hfl1. done.
    + assert (mt1 = set_participants
                      (filter (λ p, id p ≠ pid) (participants mt)) mt)
        as -> by congruence.
      rewrite Hs2, Hs. simpl. rewrite filter_leavers_twice.
      rewrite insert_insert_eq. f_equal.
      apply map_eq. intros j. destruct (decide (m = j)) as [<-|Hj].
      * rewrite !lookup_alter_eq.
        destruct (participant_cache (service w) !! m) as [ids|]; simpl; [|done].
        f_equal. apply set_eq. intros y.
        rewrite !elem_of_difference. tauto.
      * by rewrite !lookup_alter_ne by done.
Qed.

(** X7: the conversation references are not touched by a join, nor by a
    leave after which the meeting is still active: only a leave that
    closes the meeting, a cleanup, or a new reference changes them. *)
Theorem join_leave_keep_references
    (env : Env) (m pid : string) (p : ParticipantInfo) (w : World) :
  conversation_references (service (exec (handle_meeting_join env m p) w)) =
    conversation_references (service w) ∧
  (is_Some (active_meetings (service (exec (handle_meeting_leave m pid) w)) !! m) →
   conversation_references (service (exec (handle_meeting_leave m pid) w)) =
     conversation_references (service w)).
Proof.
  split.
  - destruct (join_cases env m p w)
      as [[_ (t & Hf & _)] | [(mt & ids & _ & _ & _ & t & Hf & _)
                             | (mt & t & _ & _ & Hf & _)]];
      by apply finishes_exec in Hf as (-> & _).
  - destruct (leave_cases m pid w)
      as [[_ ->] | [(mt & _ & _ & ->) | (mt & _ & _ & ->)]]; [done| |done].
    simpl. rewrite lookup_delete_eq. by intros [? ?].
Qed.

Lemma join_leave_keep_references_witness :
  is_Some (active_meetings
             (service (exec (handle_meeting_leave "m1" "p2") ana_in_m1)) !! "m1") ∧
  conversation_references
    (service (exec (handle_meeting_leave "m1" "p2") ana_in_m1)) =
  conversation_references (service ana_in_m1).
Proof.
  assert (is_Some (active_meetings
            (service (exec (handle_meeting_leave "m1" "p2") ana_in_m1)) !! "m1"))
    as Hopen by (vm_compute; eauto).
  split; [exact Hopen|].
  exact (proj2 (join_leave_keep_references env_up "m1" "p2" rui ana_in_m1) Hopen).
Defined.

(** ** The event handlers of the bot *)

Section events_more.

Local Arguments handle_meeting_join : simpl never.
Local Arguments handle_meeting_leave : simpl never.

(** One join adds as many participants to its meeting as it dispatches
    greetings. *)
Lemma join_headcount env m p w :
  ∃ s t, finishes (handle_meeting_join env m p) w tt s t ∧
         headcount s m = headcount (service w) m + dispatches t.
Proof.
  unfold headcount.
  destruct (join_cases env m p w)
    as [[HA (t & Hf & Hd)] | [(mt & ids & HA & _ & _ & t & Hf & Hd)
                             | (mt & t & HA & _ & Hf & Hd)]];
    do 2 eexists; (split; [exact Hf|]); simpl;
    rewrite ?lookup_insert_eq, HA, Hd; simpl;
    rewrite ?length_app; simpl; lia.
Qed.

Lemma join_each_headcount env m joined :
  ∀ i w, ∃ s t, finishes (join_each env i m joined) w tt s t ∧
                headcount s m = headcount (service w) m + dispatches t.
Proof.
  induction joined as [|tp joined IH]; intros i w.
  - exists (service w), []. unfold finishes. simpl.
    split; [by rewrite app_nil_r; destruct w|]. rewrite dispatches_nil. lia.
  - cbn [join_each].
    destruct (_is_bot_participant (_convert_teams_participant (env i) tp)).
    + apply IH.
    + destruct (join_headcount (env i) m (_convert_teams_participant (env i) tp) w)
        as (s1 & t1 & Hf1 & Hh1).
      destruct (IH (S i) {| service := s1; trace := trace w ++ t1 |})
        as (s & t & Hf & Hh).
      exists s, (t1 ++ t). split.
      * unfold finishes in *. munfold. rewrite Hf1, Hf. simpl.
        by rewrite app_assoc.
      * simpl in Hh. rewrite dispatches_app. lia.
Qed.

(** A leave never puts an id on a list. *)
Lemma leave_adds_nobody m pid m' x w :
  listed (service (exec (handle_meeting_leave m pid) w)) m' x →
  listed (service w) m' x.
Proof.
  destruct (leave_cases m pid w)
    as [[_ ->] | [(mt & HA & Hfl & ->) | (mt & HA & Hfl & ->)]]; [done| |];
    unfold listed; simpl; intros (mt' & H & Hin);
    (destruct (decide (m = m')) as [<-|Hm];
     [| rewrite ?lookup_delete_ne, ?lookup_insert_ne in H by done; eauto]).
  - by rewrite lookup_delete_eq in H.
  - rewrite lookup_insert_eq in H. injection H as <-.
    exists mt. split; [done|].
    apply list_elem_of_fmap in Hin as (q & -> & [_ Hq]%list_elem_of_filter).
    apply list_elem_of_fmap. eauto.
Qed.

Lemma leave_each_effect m left :
  ∀ w, ∃ s t, finishes (leave_each m left) w tt s t ∧ dispatches t = 0 ∧
              (∀ m' x, listed s m' x → listed (service w) m' x) ∧
              (∀ tp, tp ∈ left → ¬ listed s m (joined_id tp)).
Proof.
  induction left as [|tp left IH]; intros w.
  - exists (service w), []. unfold finishes. simpl.
    split; [by rewrite app_nil_r; destruct w|]. split; [done|].
    split; [done|]. intros tp Htp. by apply elem_of_nil in Htp.
  - cbn [leave_each]. fold (joined_id tp).
    destruct (leave_finishes m (joined_id tp) w) as (s1 & t1 & Hf1 & Hd1).
    destruct (IH {| service := s1; trace := trace w ++ t1 |})
      as (s & t & Hf & Hd & Hsub & Hgone).
    pose proof (finishes_exec _ _ _ _ _ Hf1) as (Hs1 & _).
    exists s, (t1 ++ t). split.
    { unfold finishes in *. munfold. rewrite Hf1, Hf. simpl.
      by rewrite app_assoc. }
    split; [rewrite dispatches_app; lia|]. simpl in Hsub. split.
    + intros m' x Hx. apply Hsub in Hx. rewrite <- Hs1 in Hx.
      by apply leave_adds_nobody in Hx.
    + intros tp' [->|Hin]%elem_of_cons; [|by apply Hgone].
      intros Hx. apply Hsub in Hx. rewrite <- Hs1 in Hx.
      destruct (active_meetings (service w) !! m) as [mt|] eqn:HA.
      * destruct (leave_removes m (joined_id tp) w) as [Hn _];
          [by rewrite HA|]. by apply Hn.
      * apply leave_adds_nobody in Hx. destruct Hx as (mt & H & _). congruence.
Qed.

End events_more.

(** X8: the join event handler dispatches exactly one greeting for each
    participant that it adds to the meeting's list: the list of the
    event's meeting grows by the number of speech requests sent, in any
    state and whatever the outside answers. *)
Theorem one_greeting_per_added_participant
    (env : nat → Env) (joined : list Teams.MeetingParticipant)
    (info : Teams.MeetingInfo) (w : World) :
  let handler := on_teams_meeting_participants_join env joined info in
  let m := default "unknown" (Teams.meeting_info_id info) in
  headcount (service (exec handler w)) m =
  headcount (service w) m + dispatches (emitted handler w).
Proof.
  intros handler m.
  destruct (join_each_headcount env m joined 0
              {| service := service w;
                 trace := trace w ++ [LogInfo "Teams meeting participants joined" [m]] |})
    as (s & t & Hf & Hh).
  assert (finishes handler w tt s
            (LogInfo "Teams meeting participants joined" [m] :: t)) as Hfin.
  { unfold finishes in *. unfold handler, on_teams_meeting_participants_join.
    munfold. simpl. fold m. rewrite Hf. simpl. by rewrite <- app_assoc. }
  apply finishes_exec in Hfin as (-> & _ & -> & _).
  simpl in Hh. by rewrite dispatches_cons.
Qed.

(** X9: the leave event handler returns, dispatches no greeting, puts
    nobody on any list, and when it has run none of the participants named
    in the event is on the list of the event's meeting. *)
Theorem leave_event_removes_all
    (left : list Teams.MeetingParticipant) (info : Teams.MeetingInfo) (w : World) :
  let handler := on_teams_meeting_participants_leave left info in
  let m := default "unknown" (Teams.meeting_info_id info) in
  let s' := service (exec handler w) in
  returns handler w ∧
  dispatches (emitted handler w) = 0 ∧
  (∀ m' x, listed s' m' x → listed (service w) m' x) ∧
  (∀ tp, tp ∈ left → ¬ listed s' m (joined_id tp)).
Proof.
  intros handler m s'. subst s'.
  destruct (leave_each_effect m left
              {| service := service w;
                 trace := trace w ++ [LogInfo "Teams meeting participants left" [m]] |})
    as (s & t & Hf & Hd & Hsub & Hgone).
  assert (finishes handler w tt s
            (LogInfo "Teams meeting participants left" [m] :: t)) as Hfin.
  { unfold finishes in *. unfold handler, on_teams_meeting_participants_leave.
    munfold. simpl. fold m. rewrite Hf. simpl. by rewrite <- app_assoc. }
  apply finishes_exec in Hfin as (-> & _ & -> & Hret).
  split; [exact Hret|]. split; [by rewrite dispatches_cons|].
  split; [exact Hsub|exact Hgone].
Qed.

Lemma leave_event_removes_all_witness :
  abbott ∈ [abbott] ∧
  ¬ listed (service (exec (on_teams_meeting_participants_leave [abbott]
                             {| Teams.meeting_info_id := Some "m1" |}) ana_in_m1))
      "m1" "p7".
Proof.
  assert (abbott ∈ [abbott]) as Hin by apply list_elem_of_here.
  split; [exact Hin|].
  pose proof (leave_event_removes_all [abbott]
                {| Teams.meeting_info_id := Some "m1" |} ana_in_m1)
    as (_ & _ & _ & Hgone).
  exact (Hgone abbott Hin).
Defined.



(** ** Greeting text and synthesis *)

Section synthesis_more.

Local Arguments String.append !_ _ / : simpl nomatch.

(** Inside a field, plain characters are gathered up to the closing
    brace. *)
Lemma format_from_field name acc f rest :
  plain_field f = true →
  format_from name (Some acc) (f +:+ "}" +:+ rest) =
  if String.eqb (acc +:+ f) "name"
  then match format_from name None rest with
       | Returned r => Returned (name +:+ r)
       | Raised e => Raised e
       end
  else Raised (FormatError (acc +:+ f)).
Proof.
  revert acc. induction f as [|c f IH]; intros acc Hf.
  - simpl. by rewrite string_app_empty_r.
  - simpl in Hf. repeat (apply andb_true_iff in Hf as [Hf ?]).
    simpl. replace (Ascii.eqb c "}") with false
      by (by destruct (Ascii.eqb c "}")).
    rewrite IH by done.
    by replace ((acc +:+ String c "") +:+ f) with (acc +:+ String c f)
      by (clear; induction acc; simpl; congruence).
Qed.

Lemma plain_field_no_open c f :
  plain_field (String c f) = true → Ascii.eqb c "{" = false.
Proof.
  simpl. intros H. repeat (apply andb_true_iff in H as [H ?]).
  by destruct (Ascii.eqb c "{").
Qed.

End synthesis_more.

(** X11: a template that is not empty and has no brace is the greeting,
    unchanged, whatever the name and the language. *)
Theorem template_without_field_verbatim (name lang template : string) :
  template ≠ "" → PyStr.brace_free template = true →
  generate_greeting_text
    {| participant_name := name; language := lang;
       custom_message := Some template |} = Returned template.
Proof.
  intros Hne Hfree. unfold generate_greeting_text. simpl.
  destruct template; [done|]. simpl PyStr.truthy. cbv iota.
  by apply format_literal.
Qed.

Lemma template_without_field_verbatim_witness :
  generate_greeting_text
    {| participant_name := "Ana"; language := "fr-FR";
       custom_message := Some "Welcome!" |} = Returned "Welcome!".
Proof.
  apply template_without_field_verbatim; [discriminate|reflexivity].
Defined.

(** X12: a template whose first replacement field is a plain name other
    than [name] makes the text generation raise, naming that field,
    whatever follows the field. *)
Theorem template_unknown_field_raises (name lang pre f post : string) :
  PyStr.brace_free pre = true → plain_field f = true → f ≠ "name" →
  generate_greeting_text
    {| participant_name := name; language := lang;
       custom_message := Some (pre +:+ "{" +:+ f +:+ "}" +:+ post) |} =
  Raised (FormatError f).
Proof.
  intros Hpre Hf Hne. unfold generate_greeting_text. simpl.
  assert (PyStr.truthy (pre +:+ "{" +:+ f +:+ "}" +:+ post) = true) as ->
    by (by destruct pre).
  unfold format. rewrite (format_from_literal _ _ _ Hpre).
  assert (format_from name None ("{" +:+ f +:+ "}" +:+ post) =
          Raised (FormatError f)) as ->; [|done].
  assert (format_from name (Some "") (f +:+ "}" +:+ post) =
          Raised (FormatError f)) as Hfield.
  { rewrite (format_from_field _ _ _ _ Hf).
    change ("" +:+ f) with f.
    destruct (String.eqb_spec f "name"); [done|reflexivity]. }
  destruct f as [|c f].
  - exact Hfield.
  - change ("{" +:+ String c f +:+ "}" +:+ post)
      with (String "{" (String c (f +:+ "}" +:+ post))).
    change (String c f +:+ "}" +:+ post)
      with (String c (f +:+ "}" +:+ post)) in Hfield.
    pose proof (plain_field_no_open c f Hf) as Hc.
    cbn [format_from]. change (Ascii.eqb "{" "{") with true. cbv iota.
    destruct c as [[] [] [] [] [] [] [] []]; try exact Hfield;
      discriminate Hc.
Qed.

Lemma template_unknown_field_raises_witness :
  generate_greeting_text
    {| participant_name := "Ana"; language := "en-US";
       custom_message := Some "Hi {user}, welcome {name}" |} =
  Raised (FormatError "user").
Proof.
  apply (template_unknown_field_raises "Ana" "en-US" "Hi " "user"
           ", welcome {name}"); [reflexivity|reflexivity|discriminate].
Defined.

(** X13: when the text generation raises, [generate_greeting_audio] logs
    the failure and raises the same error; nothing else happens: no
    request reaches the speech API and no file is written. *)
Theorem greeting_audio_text_failure
    (env : Env) (greeting_request : GreetingRequest) (e : exn) (w : World) :
  generate_greeting_text greeting_request = Raised e →
  generate_greeting_audio env greeting_request w =
  (Raised e,
   {| service := service w;
      trace := trace w ++
        [LogError "Failed to generate greeting audio"
           [participant_name greeting_request] e] |}).
Proof.
  intros H. unfold generate_greeting_audio. munfold. by rewrite H.
Qed.

Lemma greeting_audio_text_failure_witness :
  fst (generate_greeting_audio env_up
         {| participant_name := "Ana"; language := "en-US";
            custom_message := Some "{}" |} World_init) =
  Raised (FormatError "").
Proof.
  rewrite (greeting_audio_text_failure env_up
             {| participant_name := "Ana"; language := "en-US";
                custom_message := Some "{}" |} (FormatError "") World_init eq_refl).
  reflexivity.
Defined.

(** X14: [generate_speech_audio] never changes the service and sends one
    request.  When the speech API fails, the error is logged and raised
    again and no file is written.  When it answers, the audio is written
    to the file named after the drawn identifier; the call then returns
    that file's URL with the text it was given, or, when the write fails,
    logs and raises. *)
Theorem speech_audio_outcomes (env : Env) (text voice : string) (w : World) :
  let call := generate_speech_audio env text voice in
  let path := temp_dir +:+ "/" +:+ uuid4 env +:+ ".mp3" in
  service (exec call w) = service w ∧
  speech_requests (emitted call w) = [SpeechCreate text voice] ∧
  match speech_create env text voice with
  | None =>
      fst (call w) = Raised (APIError "audio.speech.create") ∧
      (∀ f, WriteBytes f ∉ emitted call w) ∧
      LogError "Failed to generate speech audio" [text]
        (APIError "audio.speech.create") ∈ emitted call w
  | Some content =>
      WriteBytes path ∈ emitted call w ∧
      if write_bytes env path content
      then fst (call w) =
             Returned {| audio_url := "file://" +:+ path; text_content := text |}
      else fst (call w) = Raised (APIError "write_bytes") ∧
           LogError "Failed to generate speech audio" [text]
             (APIError "write_bytes") ∈ emitted call w
  end.
Proof.
  intros call path. subst call path.
  unfold emitted, exec, generate_speech_audio. munfold. simpl.
  destruct (speech_create env text voice) as [content|]; simpl.
  - destruct (write_bytes env _ content); simpl;
      rewrite <- ?app_assoc, drop_app_length; simpl.
    + split; [done|]. split; [done|]. split; [|done].
      rewrite !elem_of_cons. auto.
    + split; [done|]. split; [done|]. split; [|split; [done|]];
        rewrite !elem_of_cons; auto.
  - rewrite <- ?app_assoc, drop_app_length. simpl.
    split; [done|]. split; [done|]. split; [done|]. split.
    + intros f. rewrite !not_elem_of_cons.
      repeat split; [discriminate..|apply not_elem_of_nil].
    + rewrite !elem_of_cons. auto.
Qed.

Lemma speech_audio_outcomes_witness :
  fst (generate_speech_audio env_down "Hi" "alloy" World_init) =
    Raised (APIError "audio.speech.create") ∧
  ∀ f, WriteBytes f ∉ emitted (generate_speech_audio env_down "Hi" "alloy") World_init.
Proof.
  pose proof (speech_audio_outcomes env_down "Hi" "alloy" World_init)
    as (_ & _ & Hfail).
  simpl in Hfail. destruct Hfail as (Hraise & Hnowrite & _).
  split; [exact Hraise|exact Hnowrite].
Defined.

(** X15: an audio response that [generate_greeting_audio] returns carries
    the greeting text of its request, and that text was sent to the speech
    API with the voice of the request's language; the service is as
    before. *)
Theorem greeting_audio_carries_text
    (env : Env) (greeting_request : GreetingRequest) (w w' : World)
    (audio : AudioResponse) :
  generate_greeting_audio env greeting_request w = (Returned audio, w') →
  generate_greeting_text greeting_request = Returned (text_content audio) ∧
  SpeechCreate (text_content audio) (selected_voice (language greeting_request))
    ∈ trace w' ∧
  service w' = service w.
Proof.
  unfold generate_greeting_audio, generate_speech_audio. munfold.
  destruct (generate_greeting_text greeting_request) as [text|e]; simpl;
    [|discriminate].
  destruct (speech_create env text _) as [content|]; simpl; [|discriminate].
  destruct (write_bytes env _ content); simpl; [|discriminate].
  intros [= <- <-]. simpl. split; [done|]. split; [|done].
  rewrite !elem_of_app, !elem_of_cons. auto 10.
Qed.

Lemma greeting_audio_carries_text_witness :
  generate_greeting_text
    {| participant_name := "Ana"; language := "es-ES"; custom_message := None |} =
  Returned
    (text_content
       {| audio_url := "file:///tmp/teams_bot_audio/0002.mp3";
          text_content := "Buenos dÃ­as, Ana" |}).
Proof.
  refine (proj1 (greeting_audio_carries_text env_up
                   {| participant_name := "Ana"; language := "es-ES";
                      custom_message := None |} World_init _ _ _)).
  vm_compute. reflexivity.
Defined.

(** ** What a greeting sends *)

Section greeting_more.

Local Arguments _generate_and_play_greeting : simpl never.

Lemma speech_requests_app t1 t2 :
  speech_requests (t1 ++ t2) = speech_requests t1 ++ speech_requests t2.
Proof. unfold speech_requests. by rewrite filter_app. Qed.

Lemma greeting_finishes_events env m p w :
  ∃ t, finishes (_generate_and_play_greeting env m p) w tt (service w) t ∧
       greeting_events env m p (conversation_references (service w)) t.
Proof.
  unfold finishes, _generate_and_play_greeting, generate_greeting_audio,
    generate_speech_audio, _play_audio_in_meeting, greeting_events,
    synthesis_succeeds.
  munfold. rewrite generate_greeting_text_table. simpl.
  fold (greeting_for env p).
  destruct (speech_create env _ _) as [content|] eqn:Hs; simpl.
  - destruct (write_bytes env _ content) eqn:Hw; simpl.
    + destruct (conversation_references (service w) !! m) as [ref|] eqn:Href.
      * rewrite (has_key_Some _ _ _ Href). unfold ret. simpl.
        eexists. split; [trace_norm; reflexivity|]. split; [reflexivity|].
        intros m' x. rewrite !elem_of_cons, elem_of_nil. split.
        -- intros [H|[H|[H|[H|[H|[H|[H|[H|[]]]]]]]]]; try discriminate H.
           injection H as -> ->. eauto 10.
        -- intros (-> & -> & _). auto 10.
      * rewrite (has_key_None _ _ Href). simpl.
        eexists. split; [trace_norm; reflexivity|]. split; [reflexivity|].
        intros m' x. rewrite !elem_of_cons, elem_of_nil. split.
        -- intros [H|[H|[H|[H|[H|[H|[H|[]]]]]]]]; discriminate H.
        -- intros (_ & _ & [? H] & _). discriminate H.
    + eexists. split; [trace_norm; reflexivity|]. split; [reflexivity|].
      intros m' x. rewrite !elem_of_cons, elem_of_nil. split.
      * intros [H|[H|[H|[H|[H|[H|[]]]]]]]; discriminate H.
      * intros (_ & _ & _ & c & Hc & Hwc).
        assert (c = content) as -> by congruence. congruence.
  - eexists. split; [trace_norm; reflexivity|]. split; [reflexivity|].
    intros m' x. rewrite !elem_of_cons, elem_of_nil. split.
    + intros [H|[H|[H|[H|[H|[]]]]]]; discriminate H.
    + intros (_ & _ & _ & c & Hc & _). discriminate Hc.
Qed.

Lemma greeting_events_framed env m p refs t a b :
  greeting_events env m p refs t →
  greeting_events env m p refs (LogInfo a b :: t ++ [LogInfo "Bot activity logged"
    ["participant_joined"; m; id p]]).
Proof.
  intros [Hreq Hmsg]. split.
  - change (LogInfo a b :: t ++ [LogInfo "Bot activity logged"
              ["participant_joined"; m; id p]])
      with ([LogInfo a b] ++ t ++ [LogInfo "Bot activity logged"
              ["participant_joined"; m; id p]]).
    rewrite !speech_requests_app, Hreq. reflexivity.
  - intros m' x. rewrite elem_of_cons, elem_of_app, elem_of_cons, elem_of_nil.
    rewrite <- Hmsg. split; [|by auto].
    intros [H|[H|[H|[]]]]; [discriminate H|done|discriminate H].
Qed.

(** The events of a join that adds its participant. *)
Lemma join_new_events env m p w :
  consistent (service w) → ¬ indexed (service w) m (id p) →
  greeting_events env m p (conversation_references (service w))
    (emitted (handle_meeting_join env m p) w).
Proof.
  intros Hc Hnot.
  assert (∃ t, greeting_events env m p (conversation_references (service w)) t ∧
               ∃ s, handle_meeting_join env m p w =
                    (Returned tt,
                     {| service := s;
                        trace := trace w ++
                          LogInfo "Participant joined meeting" [m; display_name p]
                          :: t ++ [LogInfo "Bot activity logged"
                                     ["participant_joined"; m; id p]] |}))
    as (t & Hev & s & Hrun).
  { unfold handle_meeting_join, initialize_meeting. munfold.
    destruct w as [[A C R] t0]. simpl in *.
    destruct (A !! m) as [mt|] eqn:HA.
    - destruct (Hc m mt HA) as [HC _]. simpl in HC.
      assert (id p ∉ (list_to_set (participant_ids mt) : gset string)) as Hnew.
      { intros Hin. apply Hnot. eexists. split; [exact HC|exact Hin]. }
      rewrite (has_key_Some _ _ _ HA). simpl. rewrite HA, HC. simpl.
      rewrite bool_decide_eq_true_2 by done. simpl.
      unfold with_active_meetings, with_participant_cache. simpl.
      match goal with
      | |- context [_generate_and_play_greeting env m p ?w1] =>
          destruct (greeting_finishes_events env m p w1) as (t & Hg & Hev);
          unfold finishes in Hg; rewrite Hg
      end.
      simpl in *. unfold _log_bot_activity. munfold. simpl.
      exists t. split; [exact Hev|]. eexists. trace_norm. reflexivity.
    - rewrite (has_key_None _ _ HA). simpl.
      unfold with_active_meetings, with_participant_cache. simpl.
      rewrite !lookup_insert_eq. simpl.
      rewrite bool_decide_eq_true_2 by set_solver. simpl.
      match goal with
      | |- context [_generate_and_play_greeting env m p ?w1] =>
          destruct (greeting_finishes_events env m p w1) as (t & Hg & Hev);
          unfold finishes in Hg; rewrite Hg
      end.
      simpl in *. unfold _log_bot_activity. munfold. simpl.
      exists t. split; [exact Hev|]. eexists. trace_norm. reflexivity. }
  unfold emitted, exec. rewrite Hrun. simpl. rewrite drop_app_length.
  by apply greeting_events_framed.
Qed.

End greeting_more.

(** X16: a join that adds its participant sends one speech request: the
    phrase of the configured language (of pt-BR when the language is not in
    the table) with the participant's display name, in that language's
    voice.  A chat message is built exactly when the meeting has a
    conversation reference and the synthesis succeeded; it is for that
    meeting and carries the greeting text. *)
Theorem join_greeting_request
    (env : Env) (m : string) (p : ParticipantInfo) (w : World) :
  consistent (service w) → ¬ indexed (service w) m (id p) →
  let t := emitted (handle_meeting_join env m p) w in
  generate_greeting_text
    {| participant_name := display_name p;
       language := default_greeting_language env;
       custom_message := None |} = Returned (greeting_for env p) ∧
  speech_requests t =
    [SpeechCreate (greeting_for env p)
       (selected_voice (default_greeting_language env))] ∧
  ∀ m' x, MessageText m' x ∈ t ↔
    m' = m ∧ x = "ðŸŽµ " +:+ greeting_for env p ∧
    is_Some (conversation_references (service w) !! m) ∧
    synthesis_succeeds env p.
Proof.
  intros Hc Hnot t. split; [reflexivity|].
  exact (join_new_events env m p w Hc Hnot).
Qed.

Lemma join_greeting_request_witness :
  speech_requests (emitted (handle_meeting_join env_up "m1" rui) ana_in_m1) =
  [SpeechCreate "Bom dia, Rui" "alloy"].
Proof.
  assert (consistent (service ana_in_m1)) as Hc.
  { apply invariant_reachable. by exists [Join env_down "m1" ana]. }
  assert (¬ indexed (service ana_in_m1) "m1" (id rui)) as Hn.
  { assert (participant_cache (service ana_in_m1) !! "m1" = Some {["p1"]}) as HC
      by (vm_compute; reflexivity).
    intros (ids & H & Hin). rewrite HC in H. injection H as <-.
    apply elem_of_singleton in Hin. discriminate Hin. }
  exact (proj1 (proj2 (join_greeting_request env_up "m1" rui ana_in_m1 Hc Hn))).
Defined.

(** X17: when a meeting is active but the index has no entry for it, a
    join raises inside the handler on the index lookup: the handler logs
    the missing key and returns, nobody is added, no greeting is
    dispatched, and the service is as before, so that every later join to
    that meeting ends the same way. *)
Theorem join_without_index_entry
    (env : Env) (m : string) (p : ParticipantInfo) (w : World) (mt : MeetingInfo) :
  active_meetings (service w) !! m = Some mt →
  participant_cache (service w) !! m = None →
  let handler := handle_meeting_join env m p in
  returns handler w ∧
  service (exec handler w) = service w ∧
  emitted handler w =
    [LogInfo "Participant joined meeting" [m; display_name p];
     LogError "Failed to handle meeting join" [m; display_name p] (KeyError m)].
Proof.
  intros HA HC handler.
  pose proof (join_no_index env m p w mt HA HC) as Hf.
  apply finishes_exec in Hf as (Hs & _ & He & Hret). done.
Qed.

Lemma join_without_index_entry_witness :
  emitted (handle_meeting_join env_up "m1" rui)
    {| service :=
         {| active_meetings := active_meetings (service ana_in_m1);
            participant_cache := ∅;
            conversation_references := ∅ |};
       trace := [] |} =
  [LogInfo "Participant joined meeting" ["m1"; "Rui"];
   LogError "Failed to handle meeting join" ["m1"; "Rui"] (KeyError "m1")].
Proof.
  refine (proj2 (proj2 (join_without_index_entry env_up "m1" rui _
            {| meeting_id := "m1"; organizer_id := "unknown"; subject := None;
               participants := [ana]; started_at := Some 10%Z |} _ _))).
  - vm_compute. reflexivity.
  - apply lookup_empty.
Defined.

(** ** The routes *)

(** X18: the meeting route answers 404 "Meeting not found" exactly for the
    meetings that are not active and the record itself for the others; it
    never answers 500 and leaves the world as it is.  After the leave that
    empties a meeting the route answers 404 for it. *)
Theorem meeting_route_not_found (m : string) (w : World) :
  snd (bot_routes.get_meeting_info m w) = w ∧
  (active_meetings (service w) !! m = None →
   fst (bot_routes.get_meeting_info m w) =
     inr {| bot_routes.status_code := 404;
            bot_routes.detail := "Meeting not found" |}) ∧
  (∀ mt, active_meetings (service w) !! m = Some mt →
         fst (bot_routes.get_meeting_info m w) = inl mt) ∧
  (∀ pid mt,
     active_meetings (service w) !! m = Some mt →
     filter (λ q, id q ≠ pid) (participants mt) = [] →
     fst (bot_routes.get_meeting_info m (exec (handle_meeting_leave m pid) w)) =
       inr {| bot_routes.status_code := 404;
              bot_routes.detail := "Meeting not found" |}).
Proof.
  assert (∀ w0, bot_routes.get_meeting_info m w0 =
                (match active_meetings (service w0) !! m with
                 | Some mt => inl mt
                 | None => inr {| bot_routes.status_code := 404;
                                  bot_routes.detail := "Meeting not found" |}
                 end, w0)) as Hroute.
  { intros w0. unfold bot_routes.get_meeting_info, get_meeting_info. munfold.
    simpl. by destruct (active_meetings (service w0) !! m). }
  rewrite !Hroute. simpl. split; [done|]. split; [by intros ->|].
  split; [by intros mt ->|]. intros pid mt HA Hfl.
  rewrite Hroute. simpl. rewrite (leave_last m pid w mt HA Hfl). simpl.
  by rewrite lookup_delete_eq.
Qed.

Lemma meeting_route_not_found_witness :
  fst (bot_routes.get_meeting_info "m1"
         (exec (handle_meeting_leave "m1" "p1") ana_in_m1)) =
  inr {| bot_routes.status_code := 404;
         bot_routes.detail := "Meeting not found" |}.
Proof.
  refine (proj2 (proj2 (proj2 (meeting_route_not_found "m1" ana_in_m1)))
            "p1"
            {| meeting_id := "m1"; organizer_id := "unknown"; subject := None;
               participants := [ana]; started_at := Some 10%Z |} _ eq_refl).
  vm_compute. reflexivity.
Defined.



(** X20: in a meeting that already has participants, the join of somebody
    new followed by the leave of the same id restores the service exactly:
    meetings, index and conversation references are as before the
    join. *)
Theorem join_then_leave_restores
    (env : Env) (m : string) (p : ParticipantInfo) (w : World) (mt : MeetingInfo) :
  consistent (service w) →
  active_meetings (service w) !! m = Some mt →
  participants mt ≠ [] →
  ¬ indexed (service w) m (id p) →
  service (exec (handle_meeting_leave m (id p))
             (exec (handle_meeting_join env m p) w)) = service w.
Proof.
  intros Hc HA Hne Hnot.
  destruct (Hc m mt HA) as [HC _].
  assert (id p ∉ (list_to_set (participant_ids mt) : gset string)) as Hnew.
  { intros Hin. apply Hnot. eexists. split; [exact HC|exact Hin]. }
  destruct (join_new_participant env m p w mt _ HA HC Hnew) as (t & Hf & _).
  apply finishes_exec in Hf as (Hs1 & _).
  set (w1 := exec (handle_meeting_join env m p) w) in *.
  assert (active_meetings (service w1) !! m = Some (append_participant p mt))
    as HA1 by (rewrite Hs1; simpl; apply lookup_insert_eq).
  assert (filter (λ q, id q ≠ id p) (participants (append_participant p mt)) =
          participants mt) as Hfl.
  { simpl. rewrite filter_app, filter_absent.
    - rewrite filter_cons_False by (intros H; by apply H).
      by rewrite filter_nil, app_nil_r.
    - intros Hin. apply Hnew. by apply elem_of_list_to_set. }
  destruct (leave_cases m (id p) w1)
    as [[HA1' _] | [(mt1 & HA1' & Hfl1 & _) | (mt1 & HA1' & _ & ->)]].
  - congruence.
  - assert (mt1 = append_participant p mt) as -> by congruence. congruence.
  - assert (mt1 = append_participant p mt) as -> by congruence.
    rewrite Hfl, Hs1. simpl.
    rewrite insert_insert_eq, alter_insert_eq.
    replace (set_participants (participants mt) (append_participant p mt))
      with mt by (by destruct mt).
    rewrite (insert_id _ _ _ HA).
    replace ((list_to_set (participant_ids mt) ∪ {[id p]}) ∖ {[id p]})
      with (list_to_set (participant_ids mt) : gset string).
    + rewrite (insert_id _ _ _ HC). by destruct (service w).
    + apply set_eq. intros x.
      rewrite elem_of_difference, elem_of_union, elem_of_singleton.
      split; [|by intros [[?|?] ?]].
      intros Hx. split; [by left|]. by intros ->.
Qed.

Lemma join_then_leave_restores_witness :
  service (exec (handle_meeting_leave "m1" "p2")
             (exec (handle_meeting_join env_up "m1" rui) ana_in_m1)) =
  service ana_in_m1.
Proof.
  assert (consistent (service ana_in_m1)) as Hc.
  { apply invariant_reachable. by exists [Join env_down "m1" ana]. }
  assert (active_meetings (service ana_in_m1) !! "m1" =
          Some {| meeting_id := "m1"; organizer_id := "unknown"; subject := None;
                  participants := [ana]; started_at := Some 10%Z |}) as HA
    by (vm_compute; reflexivity).
  assert (¬ indexed (service ana_in_m1) "m1" (id rui)) as Hn.
  { assert (participant_cache (service ana_in_m1) !! "m1" = Some {["p1"]}) as HC
      by (vm_compute; reflexivity).
    intros (ids & H & Hin). rewrite HC in H. injection H as <-.
    apply elem_of_singleton in Hin. discriminate Hin. }
  exact (join_then_leave_restores env_up "m1" rui ana_in_m1 _ Hc HA
           ltac:(discriminate) Hn).
Defined.
